(** * bAbI question answering notebook: the data-handling helpers

    A shallow embedding of the string-processing helpers of
    [Workshop/sessions/16_QA.ipynb] (a Python 2 notebook): the tokenizer,
    the story parser, [get_stories], the vectorizer, the vocabulary
    construction, the download cell and the interactive [ask_qa].

    Conventions.
    - A Python exception is the [None] of an [option] (or the [Raise] of
      the small effect monad used for the cells that print).
    - Text is a Rocq [string]; a character is a code point below 256.
      Python 2 has two string types whose [strip]/[split]/[isspace]
      disagree on what white space is, so the primitives take the string
      type as a parameter: [PyUnicode] for the decoded dataset lines,
      [PyStr] for the literals handed to [ask_qa]. *)

From Stdlib Require Import ZArith Ascii String.
From stdpp Require Import gmap strings list fin_maps sorting.

Local Open Scope Z_scope.

(** ** Python string primitives *)

Inductive str_type := PyStr | PyUnicode.

(** [c.isspace()]: the C locale class for [str], the Unicode white space
    property (restricted to code points below 256) for [unicode]. *)
Definition isspace (k : str_type) (c : ascii) : bool :=
  let n := Z.of_nat (nat_of_ascii c) in
  match k with
  | PyStr => (9 <=? n) && (n <=? 13) || (n =? 32)
  | PyUnicode =>
      (9 <=? n) && (n <=? 13) || (28 <=? n) && (n <=? 32)
      || (n =? 133) || (n =? 160)
  end.

(** The class [\w] of [re] without the LOCALE and UNICODE flags:
    [[a-zA-Z0-9_]], for both string types. *)
Definition is_word (c : ascii) : bool :=
  let n := Z.of_nat (nat_of_ascii c) in
  (48 <=? n) && (n <=? 57) || (65 <=? n) && (n <=? 90)
  || (97 <=? n) && (n <=? 122) || (n =? 95).

Definition TAB : ascii := "009"%char.
Definition SPACE : ascii := " "%char.

Fixpoint lstrip (k : str_type) (s : string) : string :=
  match s with
  | "" => ""
  | String c s' => if isspace k c then lstrip k s' else s
  end.

Fixpoint rstrip (k : str_type) (s : string) : string :=
  match s with
  | "" => ""
  | String c s' =>
      match rstrip k s' with
      | "" => if isspace k c then "" else String c ""
      | r => String c r
      end
  end.

(** [s.strip()] *)
Definition strip (k : str_type) (s : string) : string := rstrip k (lstrip k s).

(** [sep in s] for a one-character [sep]. *)
Fixpoint contains (sep : ascii) (s : string) : bool :=
  match s with
  | "" => false
  | String c s' => Ascii.eqb c sep || contains sep s'
  end.

(** [s.split(sep)] for a one-character [sep]: never the empty list. *)
Fixpoint split_on (sep : ascii) (s : string) : list string :=
  match s with
  | "" => [""]
  | String c s' =>
      if Ascii.eqb c sep then "" :: split_on sep s'
      else match split_on sep s' with
           | p :: ps => String c p :: ps
           | [] => [String c ""]
           end
  end.

(** [a, b = s.split(sep, 1)]: the unpacking raises [ValueError] when [s]
    has no [sep]. *)
Fixpoint split_first (sep : ascii) (s : string) : option (string * string) :=
  match s with
  | "" => None
  | String c s' =>
      if Ascii.eqb c sep then Some ("", s')
      else '(a, b) ← split_first sep s'; Some (String c a, b)
  end.

(** [a, b, c = s.split(sep)] *)
Definition split_three (sep : ascii) (s : string)
  : option (string * string * string) :=
  match split_on sep s with
  | [a; b; c] => Some (a, b, c)
  | _ => None
  end.

(** [s.split()]: the maximal runs of characters that are not white space. *)
Fixpoint split_ws (k : str_type) (s : string) : list string :=
  match s with
  | "" => []
  | String c s' =>
      if isspace k c then split_ws k s'
      else match s' with
           | "" => [String c ""]
           | String c' _ =>
               if isspace k c' then String c "" :: split_ws k s'
               else match split_ws k s' with
                    | w :: ws => String c w :: ws
                    | [] => [String c ""]
                    end
           end
  end.

Definition digit_val (c : ascii) : option Z :=
  let n := Z.of_nat (nat_of_ascii c) in
  if (48 <=? n) && (n <=? 57) then Some (n - 48) else None.

Fixpoint digits_val (acc : Z) (s : string) : option Z :=
  match s with
  | "" => Some acc
  | String c s' => d ← digit_val c; digits_val (10 * acc + d) s'
  end.

(** [int(s)] in base 10: surrounding white space, an optional sign, at
    least one decimal digit; anything else is a [ValueError]. *)
Definition py_int (k : str_type) (s : string) : option Z :=
  match strip k s with
  | "" => None
  | String "+" "" | String "-" "" => None
  | String "+" ds => digits_val 0 ds
  | String "-" ds => Z.opp <$> digits_val 0 ds
  | ds => digits_val 0 ds
  end.

(** [l[i]] with Python's negative indices; [IndexError] out of range. *)
Definition py_index {A} (l : list A) (i : Z) : option A :=
  let n := Z.of_nat (length l) in
  if (0 <=? i) && (i <? n) then l !! Z.to_nat i
  else if (- n <=? i) && (i <? 0) then l !! Z.to_nat (n + i)
  else None.

(** ** The tokenizer *)

(** [re.split('(\W+)?', sent)] as Python 2.7 runs it.  The pattern matches
    at every position: a maximal run of non-word characters where one
    starts, the empty string elsewhere.  Python 2.7 never splits on an
    empty match (it moves on by one character), so the string is split at
    the maximal runs of non-word characters, and the capture group puts
    each run into the result between the segments it separates.

    [scan_word seg s] is the scanner between two matches, [seg] being the
    segment read since the last match; [scan_sep run s] is the scanner
    inside a match, [run] being the non-word characters matched so far. *)
Fixpoint scan_word (seg : string) (s : string) {struct s} : list string :=
  match s with
  | "" => [seg]
  | String c s' =>
      if is_word c then scan_word (seg +:+ String c "") s'
      else seg :: scan_sep (String c "") s'
  end
with scan_sep (run : string) (s : string) {struct s} : list string :=
  match s with
  | "" => [run; ""]
  | String c s' =>
      if is_word c then run :: scan_word (String c "") s'
      else scan_sep (run +:+ String c "") s'
  end.

Definition re_split (sent : string) : list string := scan_word "" sent.

(** [[x.strip() for x in re.split('(\W+)?', sent) if x.strip()]] *)
Definition tokenize (k : str_type) (sent : string) : list string :=
  strip k <$> filter (λ x, strip k x ≠ "") (re_split sent).
(** ** The story parser *)

(** What the [story] buffer holds: the token list of a narrative sentence,
    or the [''] that [parse_stories] appends after a question so that the
    buffer positions keep following the line numbers.  A flattened story
    is again one of the two. *)
Inductive item := Toks (ws : list string) | Blank.

Global Instance item_eq_dec : EqDecision item.
Proof. solve_decision. Defined.

(** Python truth value: [[]] and [''] are false. *)
Definition truthy (x : item) : bool :=
  match x with
  | Toks (_ :: _) => true
  | _ => false
  end.

(** [len(x)] *)
Definition item_len (x : item) : Z :=
  match x with
  | Toks ws => Z.of_nat (length ws)
  | Blank => 0
  end.

(** The words [for w in x] goes through. *)
Definition item_words (x : item) : list string :=
  match x with
  | Toks ws => ws
  | Blank => []
  end.

(** [x + y]: list with list, string with string; mixing them is a
    [TypeError]. *)
Definition item_add (x y : item) : option item :=
  match x, y with
  | Toks a, Toks b => Some (Toks (a ++ b))
  | Blank, Blank => Some Blank
  | _, _ => None
  end.

(** A parsed record: (substory, question tokens, answer). *)
Definition triple : Type := list item * list string * string.

(** One turn of the [for line in lines] loop, on the state
    [(data, story)].  The lines are the decoded ones: the turn is taken up
    after [line.decode('utf-8')], so a line that is not valid UTF-8, whose
    [UnicodeDecodeError] comes before anything here, is not an input of
    the model. *)
Definition parse_step (only_supporting : bool)
    (st : list triple * list item) (line : string)
  : option (list triple * list item) :=
  let '(data, story) := st in
  let line := strip PyUnicode line in
  '(nid, line) ← split_first SPACE line;
  nid ← py_int PyUnicode nid;
  let story := if nid =? 1 then [] else story in
  if contains TAB line then
    '(q, a, supporting) ← split_three TAB line;
    let q := tokenize PyUnicode q in
    substory ←
      (if only_supporting then
         supporting ← mapM (py_int PyUnicode) (split_ws PyUnicode supporting);
         mapM (λ i, py_index story (i - 1)) supporting
       else Some (filter (λ x, truthy x = true) story));
    Some (data ++ [(substory, q, a)], story ++ [Blank])
  else
    let sent := tokenize PyUnicode line in
    Some (data, story ++ [Toks sent]).

Fixpoint parse_loop (only_supporting : bool)
    (st : list triple * list item) (lines : list string)
  : option (list triple * list item) :=
  match lines with
  | [] => Some st
  | line :: rest =>
      st' ← parse_step only_supporting st line;
      parse_loop only_supporting st' rest
  end.

(** [data = []; story = []; for line in lines: ...; return data] *)
Definition parse_stories (lines : list string) (only_supporting : bool)
  : option (list triple) :=
  '(data, _) ← parse_loop only_supporting ([], []) lines;
  Some data.

(** ** get_stories *)

(** [reduce(lambda x, y: x + y, data)]: no initial value, so the empty
    sequence is a [TypeError]. *)
Fixpoint reduce_add (acc : item) (l : list item) : option item :=
  match l with
  | [] => Some acc
  | y :: l' => acc' ← item_add acc y; reduce_add acc' l'
  end.

Definition flatten (data : list item) : option item :=
  match data with
  | [] => None
  | x :: rest => reduce_add x rest
  end.

(** A triple of [get_stories]: (flattened story, question, answer). *)
Definition flat_triple : Type := item * list string * string.

(** The condition of the comprehension,
    [not max_length or len(flatten(story)) < max_length]: [None] and 0 are
    the false values of [max_length]. *)
Definition keeps (max_length : option Z) (story : list item) : option bool :=
  match max_length with
  | None => Some true
  | Some m =>
      if m =? 0 then Some true
      else s ← flatten story; Some (item_len s <? m)
  end.

(** The comprehension
    [[(flatten(story), q, answer) for story, q, answer in data
      if not max_length or len(flatten(story)) < max_length]]. *)
Fixpoint keep_flattened (max_length : option Z) (data : list triple)
  : option (list flat_triple) :=
  match data with
  | [] => Some []
  | (story, q, answer) :: rest =>
      keep ← keeps max_length story;
      if keep : bool then
        s ← flatten story;
        rest' ← keep_flattened max_length rest;
        Some ((s, q, answer) :: rest')
      else keep_flattened max_length rest
  end.

(** [get_stories(f, only_supporting, max_length)], [lines] being
    [f.readlines()]. *)
Definition get_stories (lines : list string) (only_supporting : bool)
    (max_length : option Z) : option (list flat_triple) :=
  data ← parse_stories lines only_supporting;
  keep_flattened max_length data.

(** A question line: text, tab, answer, tab, supporting indices. *)
Definition qline (text answer supporting : string) : string :=
  text +:+ String TAB (answer +:+ String TAB supporting).

Definition sample : list string :=
  [ "1 Mary moved to the bathroom.";
    "2 John went to the hallway.";
    qline "3 Where is Mary? " "bathroom" "1";
    "4 Daniel went back to the hallway.";
    qline "5 Where is Daniel? " "hallway" "4";
    "1 Sandra moved to the garden.";
    qline "2 Where is Sandra? " "garden" "1" ].

(** ** The vectorizer *)

(** Modelled from the spec: Keras' [pad_sequences] is a library function
    outside the notebook.  The spec (4.3, 8): every sequence is padded or
    truncated to the common maximum length, left-padding with the reserved
    zero index.  Which end a longer sequence loses is not said there; the
    library's default removes the leading entries. *)
Definition pad_row (maxlen : nat) (s : list nat) : list nat :=
  replicate (maxlen - length s)%nat 0%nat ++ drop (length s - maxlen)%nat s.

Definition pad_sequences (maxlen : nat) (X : list (list nat))
  : list (list nat) :=
  pad_row maxlen <$> X.

(** [y = np.zeros(size); y[k] = 1]: an [IndexError] when [k] is out of
    range.  The vector only ever holds 0.0 and 1.0, written 0 and 1. *)
Definition one_hot (size k : nat) : option (list nat) :=
  let y := replicate size 0%nat in
  if decide (k < size)%nat then Some (<[k := 1%nat]> y) else None.

(** The loop of [vectorize_stories] on the lists [X], [Xq], [Y];
    [word_idx[w]] is a [KeyError] for a missing word. *)
Fixpoint vectorize_loop (word_idx : gmap string nat) (data : list flat_triple)
    (X Xq Y : list (list nat))
  : option (list (list nat) * list (list nat) * list (list nat)) :=
  match data with
  | [] => Some (X, Xq, Y)
  | (story, query, answer) :: rest =>
      x ← mapM (λ w, word_idx !! w) (item_words story);
      xq ← mapM (λ w, word_idx !! w) query;
      k ← word_idx !! answer;
      y ← one_hot (size word_idx + 1) k;
      vectorize_loop word_idx rest (X ++ [x]) (Xq ++ [xq]) (Y ++ [y])
  end.

Definition vectorize_stories (data : list flat_triple)
    (word_idx : gmap string nat) (story_maxlen query_maxlen : nat)
  : option (list (list nat) * list (list nat) * list (list nat)) :=
  '(X, Xq, Y) ← vectorize_loop word_idx data [] [] [];
  Some (pad_sequences story_maxlen X, pad_sequences query_maxlen Xq, Y).

(** ** Vocabulary *)

(** [set(story + q + [answer])]; a [''] story cannot be added to a list. *)
Definition triple_words (t : flat_triple) : option (gset string) :=
  match t with
  | (Toks story, q, answer) => Some (list_to_set (story ++ q ++ [answer]))
  | (Blank, _, _) => None
  end.

(** [reduce(lambda x, y: x | y, sets)]: a [TypeError] on no set at all. *)
Definition reduce_union (sets : list (gset string)) : option (gset string) :=
  match sets with
  | [] => None
  | s :: rest => Some (foldl (∪) s rest)
  end.

(** [sorted(s)]: strings compare by code points, a prefix first. *)
Definition sorted (s : gset string) : list string :=
  merge_sort String.le (elements s).

(** [vocab = sorted(reduce(..., (set(...) for ... in train + test)))] *)
Definition build_vocab (train test : list flat_triple) : option (list string) :=
  sets ← mapM triple_words (train ++ test);
  s ← reduce_union sets;
  Some (sorted s).

(** [dict(items)]: a later item overwrites an earlier one. *)
Definition py_dict (items : list (string * nat)) : gmap string nat :=
  foldl (λ m kv, <[kv.1 := kv.2]> m) ∅ items.

(** [word_idx = dict((c, i + 1) for i, c in enumerate(vocab))] *)
Definition build_word_idx (vocab : list string) : gmap string nat :=
  py_dict (imap (λ i c, (c, (i + 1)%nat)) vocab).

(** [vocab_size = len(vocab) + 1] *)
Definition vocab_size (vocab : list string) : nat := (length vocab + 1)%nat.

(** ** Cells that print: a small monad for standard output and exceptions *)

Inductive exn :=
  | KeyError (key : string)
  | LibraryError (what : string).

Inductive result (A : Type) :=
  | Ok (a : A)
  | Raise (e : exn).
Global Arguments Ok {A} a.
Global Arguments Raise {A} e.

(** A computation reads the lines printed so far and returns them with the
    ones it printed, and its value or the exception it raised. *)
Definition io (A : Type) : Type := list string → list string * result A.

Global Instance io_ret : MRet io := λ A (a : A) out, (out, Ok a).

Global Instance io_bind : MBind io := λ A B (f : A → io B) (m : io A) out,
  match m out with
  | (out', Ok a) => f a out'
  | (out', Raise e) => (out', Raise e)
  end.

Definition raise {A} (e : exn) : io A := λ out, (out, Raise e).

Definition print (s : string) : io unit := λ out, (out ++ [s], Ok tt).

(** [try: body / except: handler]; the bare [except:] takes every
    exception, and the handler is given the one being handled. *)
Definition try_except {A} (body : io A) (handler : exn → io A) : io A :=
  λ out,
  match body out with
  | (out', Ok a) => (out', Ok a)
  | (out', Raise e) => handler e out'
  end.

Fixpoint io_mapM {A B} (f : A → io B) (l : list A) : io (list B) :=
  match l with
  | [] => mret []
  | x :: l' => y ← f x; ys ← io_mapM f l'; mret (y :: ys)
  end.

(** ** The download cell *)

Definition NL : string := String "010" "".

Definition manual_download_message : string :=
  "Error downloading dataset, please download it manually:" +:+ NL +:+
  "$ wget http://www.thespermwhale.com/jaseweston/babi/tasks_1-20_v1-2.tar.gz"
  +:+ NL +:+
  "$ mv tasks_1-20_v1-2.tar.gz ~/.keras/datasets/babi-tasks-v1-2.tar.gz".

(** The [try]/[except] around Keras' [get_file(fname, origin)], which is
    taken as a parameter; the bare [raise] raises the handled exception
    again. *)
Definition dataset_fname : string := "babi-tasks-v1-2.tar.gz".
Definition dataset_origin : string :=
  "https://s3.amazonaws.com/text-datasets/babi_tasks_1-20_v1-2.tar.gz".

Definition download_cell (get_file : string → string → io string) : io string :=
  try_except
    (get_file dataset_fname dataset_origin)
    (λ e, print manual_download_message;; raise e).

(** [needle in s] *)
Fixpoint has_prefix (p s : string) : bool :=
  match p, s with
  | "", _ => true
  | String a p', String b s' => Ascii.eqb a b && has_prefix p' s'
  | _, _ => false
  end.

Fixpoint mentions (needle s : string) : bool :=
  has_prefix needle s ||
  match s with
  | "" => false
  | String _ s' => mentions needle s'
  end.

(** ** Interactive inference *)

Section ask_qa.
(** The globals of the notebook that [ask_qa] reads. *)
Variable word_idx : gmap string nat.
Variables story_maxlen query_maxlen : nat.
(** [np.argmax(model.predict_on_batch([story_batch, query_batch])[0])]:
    the network is the library's. *)
Variable predict_argmax : list (list nat) → list (list nat) → io nat.
(** [idx_word]: read by [ask_qa], built in no cell of the notebook. *)
Variable idx_word : gmap nat string.

(** [word_idx[w]] *)
Definition lookup_word (w : string) : io nat :=
  match word_idx !! w with
  | Some i => mret i
  | None => raise (KeyError w)
  end.

Definition lookup_index (i : nat) : io string :=
  match idx_word !! i with
  | Some w => mret w
  | None => raise (LibraryError "idx_word")
  end.

Definition ask_qa (story query : string) : io unit :=
  print "---------------";;
  xs ← io_mapM lookup_word (tokenize PyStr story);
  let t_story := pad_sequences story_maxlen [xs] in
  xq ← io_mapM lookup_word (tokenize PyStr query);
  let t_query := pad_sequences query_maxlen [xq] in
  let story_batch := t_story in
  let query_batch := t_query in
  response ← predict_argmax story_batch query_batch;
  answer ← lookup_index response;
  print ("S:" +:+ story +:+ NL +:+ "Q:" +:+ query +:+ NL +:+ "A:" +:+ answer).
End ask_qa.

(** ** The dataset format, for stating what the parser returns *)

(** A line as [parse_stories] reads it: its number, and either the text of
    a narrative sentence or the three tab-separated fields of a question. *)
Inductive record :=
  | Narrative (nid : Z) (text : string)
  | Question (nid : Z) (q a supporting : string).

Definition nid_of (r : record) : Z :=
  match r with
  | Narrative n _ | Question n _ _ _ => n
  end.

(** The reading of one line in [parse_step], on its own. *)
Definition parse_line (line : string) : option record :=
  '(nid, text) ← split_first SPACE (strip PyUnicode line);
  nid ← py_int PyUnicode nid;
  if contains TAB text then
    '(q, a, supporting) ← split_three TAB text;
    Some (Question nid q a supporting)
  else Some (Narrative nid text).

(** The supporting-fact indices of a question, as the
    [only_supporting] branch reads them. *)
Definition supporting_indices (supporting : string) : option (list Z) :=
  mapM (py_int PyUnicode) (split_ws PyUnicode supporting).

(** The episode a line belongs to, among the lines read up to it and with
    it: they start at the last line numbered 1, or at the first line when
    no line is numbered 1. *)
Fixpoint current_episode (recs : list record) : list record :=
  match recs with
  | [] => []
  | r :: rest =>
      if existsb (λ r', nid_of r' =? 1) rest then current_episode rest
      else r :: rest
  end.

(** The tokenized narrative sentences of an episode whose line numbers
    satisfy [sel]. *)
Definition sentences_where (sel : Z → bool) (episode : list record)
  : list item :=
  flat_map (λ r, match r with
                 | Narrative n text =>
                     if sel n then [Toks (tokenize PyUnicode text)] else []
                 | Question _ _ _ _ => []
                 end) episode.

(** The story of a question numbered [n], in the words of the spec:
    the sentences of its episode numbered less than [n]. *)
Definition story_before (episode : list record) (n : Z) : list item :=
  sentences_where (λ m, m <? n) episode.

(** The story of a question in the supporting-facts mode, in the words of
    the spec: for each supporting index in turn, the sentences of its
    episode that have this line number. *)
Definition story_supporting (episode : list record) (supporting : list Z)
  : list item :=
  flat_map (λ i, sentences_where (λ m, m =? i) episode) supporting.

(** One triple per question line, in the order of the lines; [story_of]
    gets the question's episode, number and supporting field. *)
Fixpoint triples_of (story_of : list record → Z → string → list item)
    (before rest : list record) : list triple :=
  match rest with
  | [] => []
  | r :: rest' =>
      match r with
      | Question n q a supporting =>
          [(story_of (current_episode (before ++ [r])) n supporting,
            tokenize PyUnicode q, a)]
      | Narrative _ _ => []
      end ++ triples_of story_of (before ++ [r]) rest'
  end.

Definition stories_by_line_number (recs : list record) : list triple :=
  triples_of (λ episode n _, story_before episode n) [] recs.

Definition stories_by_supporting (recs : list record) : list triple :=
  triples_of (λ episode _ supporting,
                story_supporting episode
                  (default [] (supporting_indices supporting))) [] recs.

(** Each line is numbered 1 or higher than the line before it. *)
Fixpoint numbers_increase (prev : option Z) (recs : list record) : bool :=
  match recs with
  | [] => true
  | r :: rest =>
      ((nid_of r =? 1) ||
       match prev with Some p => p <? nid_of r | None => true end)
      && numbers_increase (Some (nid_of r)) rest
  end.

(** The lines are numbered 1, 2, 3, ... and start again at 1 only. *)
Fixpoint numbers_consecutive (prev : Z) (recs : list record) : bool :=
  match recs with
  | [] => true
  | r :: rest =>
      ((nid_of r =? 1) || (nid_of r =? prev + 1))
      && numbers_consecutive (nid_of r) rest
  end.

(** Every supporting index of every question is the number of a narrative
    sentence of the question's episode. *)
Fixpoint supporting_are_sentences (before rest : list record) : bool :=
  match rest with
  | [] => true
  | r :: rest' =>
      match r with
      | Question _ _ _ supporting =>
          match supporting_indices supporting with
          | Some sup =>
              forallb (λ i, existsb (λ r', match r' with
                                           | Narrative m _ => m =? i
                                           | Question _ _ _ _ => false
                                           end)
                              (current_episode (before ++ [r]))) sup
          | None => false
          end
      | Narrative _ _ => true
      end && supporting_are_sentences (before ++ [r]) rest'
  end.

(** ** Auxiliary definitions for the proofs *)

(** Every character of [s] is in the class [P]. *)
Fixpoint all_chars (P : ascii → bool) (s : string) : bool :=
  match s with
  | "" => true
  | String c s' => P c && all_chars P s'
  end.

Definition non_word (c : ascii) : bool := negb (is_word c).

(** A run of word characters, or a run of non-word characters. *)
Definition uniform (p : string) : Prop :=
  all_chars is_word p = true ∨ all_chars non_word p = true.

(** [sep.join(pieces)] for a one-character [sep]. *)
Fixpoint join (sep : ascii) (pieces : list string) : string :=
  match pieces with
  | [] => ""
  | [p] => p
  | p :: ps => p +:+ String sep (join sep ps)
  end.

(** What a line leaves in the [story] buffer. *)
Definition item_of (r : record) : item :=
  match r with
  | Narrative _ text => Toks (tokenize PyUnicode text)
  | Question _ _ _ _ => Blank
  end.

(** [parse_step] after the line has been read into a record. *)
Definition record_step (only_supporting : bool)
    (st : list triple * list item) (r : record)
  : option (list triple * list item) :=
  let '(data, story) := st in
  let story := if nid_of r =? 1 then [] else story in
  match r with
  | Question _ q a supporting =>
      substory ←
        (if only_supporting then
           supporting ← supporting_indices supporting;
           mapM (λ i, py_index story (i - 1)) supporting
         else Some (filter (λ x, truthy x = true) story));
      Some (data ++ [(substory, tokenize PyUnicode q, a)], story ++ [Blank])
  | Narrative _ text =>
      Some (data, story ++ [Toks (tokenize PyUnicode text)])
  end.

Fixpoint record_loop (only_supporting : bool)
    (st : list triple * list item) (recs : list record)
  : option (list triple * list item) :=
  match recs with
  | [] => Some st
  | r :: rest =>
      st' ← record_step only_supporting st r;
      record_loop only_supporting st' rest
  end.

(** What [parse_line] guarantees of the fields it returns: the line was
    stripped, so the last field does not end in white space. *)
Definition record_ok (r : record) : Prop :=
  match r with
  | Narrative _ text => all_chars (isspace PyUnicode) text = false
  | Question _ _ _ supporting =>
      all_chars (isspace PyUnicode) supporting = false
  end.

(** [(flatten(story), q, answer)] *)
Definition flatten_triple (t : triple) : option flat_triple :=
  let '(story, q, answer) := t in
  s ← flatten story; Some (s, q, answer).

(** The rows one triple adds to [X], [Xq] and [Y]. *)
Definition vectorize_one (word_idx : gmap string nat) (t : flat_triple)
  : option (list nat * list nat * list nat) :=
  let '(story, query, answer) := t in
  x ← mapM (λ w, word_idx !! w) (item_words story);
  xq ← mapM (λ w, word_idx !! w) query;
  k ← word_idx !! answer;
  y ← one_hot (size word_idx + 1) k;
  Some (x, xq, y).

(** The lines of an episode sit in the buffer at their line number. *)
Definition numbered (episode : list record) : Prop :=
  ∀ j r, episode !! j = Some r → nid_of r = Z.of_nat j + 1.

(** The episode before a line: emptied when the line is numbered 1. *)
Definition episode_before (r : record) (episode : list record) : list record :=
  if nid_of r =? 1 then [] else episode.

Definition out_of_order : list string :=
  [ "1 Mary moved to the bathroom.";
    "5 John went to the hallway.";
    qline "3 Where is Mary? " "bathroom" "1" ].

Definition gap_in_numbers : list string :=
  [ "1 Mary moved to the bathroom.";
    "3 John went to the hallway.";
    qline "4 Where is John? " "hallway" "2" ].

Definition sample_records : list record :=
  [ Narrative 1 "Mary moved to the bathroom.";
    Narrative 2 "John went to the hallway.";
    Question 3 "Where is Mary? " "bathroom" "1";
    Narrative 4 "Daniel went back to the hallway.";
    Question 5 "Where is Daniel? " "hallway" "4";
    Narrative 1 "Sandra moved to the garden.";
    Question 2 "Where is Sandra? " "garden" "1" ].

(** A small corpus with its vocabulary. *)
Definition tiny_data : list flat_triple :=
  [ (Toks ["Mary"; "moved"; "to"; "the"; "bathroom"; "."],
     ["Where"; "is"; "Mary"; "?"], "bathroom") ].

Definition tiny_vocab : list string :=
  ["."; "?"; "Mary"; "Where"; "bathroom"; "is"; "moved"; "the"; "to"].

Definition tiny_word_idx : gmap string nat := build_word_idx tiny_vocab.
Definition tiny_X : list (list nat) := [[0; 0; 3; 7; 9; 8; 5; 1]%nat].
Definition tiny_Xq : list (list nat) := [[0; 4; 6; 3; 2]%nat].
Definition tiny_Y : list (list nat) := [[0; 0; 0; 0; 0; 1; 0; 0; 0; 0]%nat].

(** A [get_file] that finds no network. *)
Definition get_file_offline (fname origin : string) : io string :=
  print ("Downloading data from " +:+ origin);;
  raise (LibraryError "URLError").

(** A network that always answers index 0, for running [ask_qa]. *)
Definition predict_zero (story_batch query_batch : list (list nat)) : io nat :=
  mret 0%nat.

(** ** The start-up cell *)

(** [max(seq)]: a [ValueError] on an empty sequence. *)
Definition py_max (l : list nat) : option nat :=
  match l with
  | [] => None
  | x :: rest => Some (foldl Nat.max x rest)
  end.

(** [story_maxlen = max(map(len, (x for x, _, _ in train + test)))] *)
Definition story_maxlen_of (corpus : list flat_triple) : option nat :=
  py_max ((λ t : flat_triple, Z.to_nat (item_len t.1.1)) <$> corpus).

(** [query_maxlen = max(map(len, (x for _, x, _ in train + test)))] *)
Definition query_maxlen_of (corpus : list flat_triple) : option nat :=
  py_max ((λ t : flat_triple, length t.1.2) <$> corpus).

(** The globals the cell leaves behind. *)
Record setup := {
  vocab : list string;
  word_idx : gmap string nat;
  story_maxlen : nat;
  query_maxlen : nat;
  train_vectors : list (list nat) * list (list nat) * list (list nat);
  test_vectors : list (list nat) * list (list nat) * list (list nat)
}.

(** The cell after [train] and [test] have been read: vocabulary,
    dictionary, maximum lengths, and the two calls of
    [vectorize_stories]. *)
Definition startup (train test : list flat_triple) : option setup :=
  vocab ← build_vocab train test;
  let word_idx := build_word_idx vocab in
  story_maxlen ← story_maxlen_of (train ++ test);
  query_maxlen ← query_maxlen_of (train ++ test);
  train_vectors ← vectorize_stories train word_idx story_maxlen query_maxlen;
  test_vectors ← vectorize_stories test word_idx story_maxlen query_maxlen;
  Some {| vocab := vocab; word_idx := word_idx;
          story_maxlen := story_maxlen; query_maxlen := query_maxlen;
          train_vectors := train_vectors; test_vectors := test_vectors |}.

(** [train = get_stories(...); test = get_stories(...)] and the rest of
    the cell, [train_lines] and [test_lines] being the lines of the two
    files. *)
Definition startup_from_files (train_lines test_lines : list string)
  : option setup :=
  train ← get_stories train_lines false None;
  test ← get_stories test_lines false None;
  startup train test.

(** ** Further auxiliary definitions *)

(** [s] without its white space. *)
Fixpoint remove_space (k : str_type) (s : string) : string :=
  match s with
  | "" => ""
  | String c s' =>
      if isspace k c then remove_space k s' else String c (remove_space k s')
  end.

(** The pieces of a list of strings, put together. *)
Definition concat_str (l : list string) : string := foldr String.app "" l.


(** The tokenized question and the answer of every question line. *)
Definition questions_of (recs : list record) : list (list string * string) :=
  flat_map (λ r, match r with
                 | Question _ q a _ => [(tokenize PyUnicode q, a)]
                 | Narrative _ _ => []
                 end) recs.

(** The story of a question by position: all the narrative sentences
    read since the last line numbered 1. *)
Definition stories_by_position (recs : list record) : list triple :=
  triples_of (λ episode _ _, sentences_where (λ _, true) episode) [] recs.

Definition sample_train : list flat_triple :=
  [ (Toks ["Mary"; "moved"; "to"; "the"; "bathroom"; "."],
     ["Where"; "is"; "Mary"; "?"], "bathroom") ].

Definition sample_test : list flat_triple :=
  [ (Toks ["Mary"; "moved"; "."; "Mary"; "moved"; "to"; "the"; "bathroom"; "."],
     ["Where"; "?"], "bathroom") ].

(** What the rows of a vectorized part of the corpus are, for the globals
    [s] of the start-up cell: the word indices of the whole story and of
    the whole query behind their padding, every index between 1 and
    [len(vocab)], and the answer vector hot at the index of the answer. *)
Definition faithful_rows (s : setup) (part : list flat_triple)
    (vectors : list (list nat) * list (list nat) * list (list nat)) : Prop :=
  let '(X, Xq, Y) := vectors in
  ∀ i story query answer,
    part !! i = Some (story, query, answer) →
    ∃ x xq k,
      mapM (λ w, word_idx s !! w) (item_words story) = Some x
      ∧ mapM (λ w, word_idx s !! w) query = Some xq
      ∧ word_idx s !! answer = Some k
      ∧ X !! i = Some (replicate (story_maxlen s - length x)%nat 0%nat ++ x)
      ∧ Xq !! i = Some (replicate (query_maxlen s - length xq)%nat 0%nat ++ xq)
      ∧ Y !! i = Some (<[k := 1%nat]>
                         (replicate (length (vocab s) + 1)%nat 0%nat))
      ∧ Forall (λ n, (1 ≤ n ≤ length (vocab s))%nat) (k :: x ++ xq).

Definition sample_setup : setup :=
  {| vocab := tiny_vocab;
     word_idx := build_word_idx tiny_vocab;
     story_maxlen := 9;
     query_maxlen := 4;
     train_vectors := ([[0; 0; 0; 3; 7; 9; 8; 5; 1]%nat], [[4; 6; 3; 2]%nat],
                       [[0; 0; 0; 0; 0; 1; 0; 0; 0; 0]%nat]);
     test_vectors := ([[3; 7; 1; 3; 7; 9; 8; 5; 1]%nat], [[0; 0; 4; 2]%nat],
                      [[0; 0; 0; 0; 0; 1; 0; 0; 0; 0]%nat]) |}.

(** A character that both string types class alike: all but the control
    characters 28 to 31, the next-line character 133 and the no-break
    space 160. *)
Definition same_space (c : ascii) : bool :=
  Bool.eqb (isspace PyStr c) (isspace PyUnicode c).

(** [s] is not empty and its first character is not white space. *)
Definition starts_nonspace (k : str_type) (s : string) : bool :=
  match s with
  | "" => false
  | String c _ => negb (isspace k c)
  end.

(** [s] is not empty and its last character is not white space. *)
Fixpoint ends_nonspace (k : str_type) (s : string) : bool :=
  match s with
  | "" => false
  | String c "" => negb (isspace k c)
  | String _ s' => ends_nonspace k s'
  end.

(** * Properties *)

(** Unfold the binds of the [option] monad, and nothing else. *)
Ltac opt_simpl := cbn [mbind option_bind mret option_ret].

(** ** Runs of the model on the notebook's own examples *)

Example tokenize_doc :
  tokenize PyStr "Bob dropped the apple. Where is the apple?"
  = ["Bob"; "dropped"; "the"; "apple"; "."; "Where"; "is"; "the"; "apple"; "?"].
Proof. vm_compute. reflexivity. Qed.

Example parse_sample :
  parse_stories sample false
  = Some [ ([Toks ["Mary"; "moved"; "to"; "the"; "bathroom"; "."];
             Toks ["John"; "went"; "to"; "the"; "hallway"; "."]],
            ["Where"; "is"; "Mary"; "?"], "bathroom");
           ([Toks ["Mary"; "moved"; "to"; "the"; "bathroom"; "."];
             Toks ["John"; "went"; "to"; "the"; "hallway"; "."];
             Toks ["Daniel"; "went"; "back"; "to"; "the"; "hallway"; "."]],
            ["Where"; "is"; "Daniel"; "?"], "hallway");
           ([Toks ["Sandra"; "moved"; "to"; "the"; "garden"; "."]],
            ["Where"; "is"; "Sandra"; "?"], "garden") ].
Proof. vm_compute. reflexivity. Qed.

Example parse_sample_supporting :
  parse_stories sample true
  = Some [ ([Toks ["Mary"; "moved"; "to"; "the"; "bathroom"; "."]],
            ["Where"; "is"; "Mary"; "?"], "bathroom");
           ([Toks ["Daniel"; "went"; "back"; "to"; "the"; "hallway"; "."]],
            ["Where"; "is"; "Daniel"; "?"], "hallway");
           ([Toks ["Sandra"; "moved"; "to"; "the"; "garden"; "."]],
            ["Where"; "is"; "Sandra"; "?"], "garden") ].
Proof. vm_compute. reflexivity. Qed.

(** ** Characters and strings *)

Lemma isspace_SPACE k : isspace k SPACE = true.
Proof. by destruct k. Qed.

Lemma isspace_TAB k : isspace k TAB = true.
Proof. by destruct k. Qed.

Lemma is_word_not_space k c : is_word c = true → isspace k c = false.
Proof.
  destruct c as [[] [] [] [] [] [] [] []], k; vm_compute; congruence.
Qed.

Lemma app_nil_str (s : string) : "" +:+ s = s.
Proof. reflexivity. Qed.

Lemma app_cons_str c (a b : string) : String c a +:+ b = String c (a +:+ b).
Proof. reflexivity. Qed.

Lemma app_empty_r (s : string) : s +:+ "" = s.
Proof. induction s as [|c s IH]; [done|]. by rewrite app_cons_str, IH. Qed.

Lemma app_assoc_str (a b c : string) : (a +:+ b) +:+ c = a +:+ b +:+ c.
Proof. induction a as [|x a IH]; [done|]. by rewrite !app_cons_str, IH. Qed.

Lemma app_eq_empty (a b : string) : a +:+ b = "" → a = "" ∧ b = "".
Proof. by destruct a, b. Qed.

Lemma empty_eq_app (a b : string) : "" = a +:+ b → a = "" ∧ b = "".
Proof. by destruct a, b. Qed.

Lemma all_chars_app P a b :
  all_chars P (a +:+ b) = all_chars P a && all_chars P b.
Proof.
  induction a as [|c a IH]; [done|].
  rewrite app_cons_str. cbn. rewrite IH. by destruct (P c).
Qed.

Lemma all_chars_lstrip P k s :
  all_chars P s = true → all_chars P (lstrip k s) = true.
Proof.
  induction s as [|c s IH]; [done|]. cbn. intros [? ?]%andb_prop.
  destruct (isspace k c); [auto|]. cbn. by apply andb_true_intro.
Qed.

Lemma all_chars_rstrip P k s :
  all_chars P s = true → all_chars P (rstrip k s) = true.
Proof.
  induction s as [|c s IH]; [done|]. cbn. intros [Hc Hs]%andb_prop.
  specialize (IH Hs). destruct (rstrip k s) as [|c' r].
  - destruct (isspace k c); [done|]. cbn. by rewrite Hc.
  - cbn in *. by rewrite Hc, IH.
Qed.

Lemma all_chars_strip P k s :
  all_chars P s = true → all_chars P (strip k s) = true.
Proof. intros. by apply all_chars_rstrip, all_chars_lstrip. Qed.

Lemma all_space_lstrip k s :
  all_chars (isspace k) (lstrip k s) = all_chars (isspace k) s.
Proof.
  induction s as [|c s IH]; [done|]. cbn.
  destruct (isspace k c) eqn:Hc; [done|]. cbn. by rewrite Hc.
Qed.

Lemma rstrip_empty k s :
  rstrip k s = "" ↔ all_chars (isspace k) s = true.
Proof.
  induction s as [|c s IH]; [done|]. cbn.
  destruct (rstrip k s) as [|c' r].
  - destruct (isspace k c); cbn; [tauto|]. split; [done|]. intros; congruence.
  - split; [done|]. intros [_ Hs]%andb_prop. apply IH in Hs. done.
Qed.

Lemma strip_empty k s : strip k s = "" ↔ all_chars (isspace k) s = true.
Proof. unfold strip. by rewrite rstrip_empty, all_space_lstrip. Qed.

(** A stripped string does not end in white space. *)
Lemma rstrip_no_space_suffix k s a b :
  rstrip k s = a +:+ b → all_chars (isspace k) b = true → b = "".
Proof.
  revert a b. induction s as [|c s IH]; intros a b; cbn.
  - by intros [_ ?]%empty_eq_app.
  - destruct (rstrip k s) as [|c' r] eqn:Hr.
    + destruct (isspace k c) eqn:Hc.
      * by intros [_ ?]%empty_eq_app.
      * destruct a as [|x a].
        -- rewrite app_nil_str. intros <-. cbn. by rewrite Hc.
        -- rewrite app_cons_str. by intros [= <- [_ ?]%empty_eq_app].
    + destruct a as [|x a].
      * rewrite app_nil_str. intros <-. cbn. intros [_ Hs]%andb_prop.
        by specialize (IH "" (String c' r) eq_refl Hs).
      * rewrite app_cons_str. intros [= <- Hab]. eauto.
Qed.

Lemma strip_no_space_suffix k s a b :
  strip k s = a +:+ b → all_chars (isspace k) b = true → b = "".
Proof. apply rstrip_no_space_suffix. Qed.

Lemma split_first_join sep s a b :
  split_first sep s = Some (a, b) → s = a +:+ String sep b.
Proof.
  revert a. induction s as [|c s IH]; intros a; cbn; [done|].
  destruct (Ascii.eqb_spec c sep) as [->|_].
  - by intros [= <- <-].
  - destruct (split_first sep s) as [[a' b']|]; cbn; [|done].
    intros [= <- <-]. rewrite app_cons_str. f_equal. by apply IH.
Qed.

Lemma split_on_nonempty sep s : split_on sep s ≠ [].
Proof.
  destruct s as [|c s]; [done|]. cbn.
  destruct (Ascii.eqb c sep); [done|]. by destruct (split_on sep s).
Qed.

Lemma join_cons sep p ps :
  ps ≠ [] → join sep (p :: ps) = p +:+ String sep (join sep ps).
Proof. by destruct ps. Qed.

Lemma split_on_join sep s : join sep (split_on sep s) = s.
Proof.
  induction s as [|c s IH]; [done|]. cbn [split_on].
  pose proof (split_on_nonempty sep s) as Hne.
  destruct (Ascii.eqb_spec c sep) as [->|_].
  - by rewrite join_cons, IH.
  - destruct (split_on sep s) as [|p [|p' ps]]; [done|..].
    + cbn in *. by rewrite IH.
    + rewrite join_cons in IH |- * by done.
      by rewrite app_cons_str, IH.
Qed.

Lemma split_three_join sep s a b c :
  split_three sep s = Some (a, b, c) →
  s = a +:+ String sep (b +:+ String sep c).
Proof.
  unfold split_three. intros H. rewrite <- (split_on_join sep s).
  destruct (split_on sep s) as [|? [|? [|? [|]]]]; by simplify_eq.
Qed.

Lemma split_ws_nonempty k s :
  all_chars (isspace k) s = false → split_ws k s ≠ [].
Proof.
  induction s as [|c s IH]; [done|]. cbn.
  destruct (isspace k c); cbn; [done|]. intros _.
  destruct s as [|c' s']; [done|]. destruct (isspace k c'); [done|].
  by destruct (split_ws k (String c' s')).
Qed.

(** ** The tokenizer *)

Lemma strip_all_space k s :
  all_chars (isspace k) (strip k s) = true → strip k s = "".
Proof. intros H. by apply (strip_no_space_suffix k s "" (strip k s)). Qed.

Lemma scan_append s :
  (∀ seg w, all_chars is_word w = true →
     scan_word seg (w +:+ s) = scan_word (seg +:+ w) s) ∧
  (∀ run p, all_chars non_word p = true →
     scan_sep run (p +:+ s) = scan_sep (run +:+ p) s).
Proof.
  split.
  - intros seg w. revert seg. induction w as [|c w IH]; intros seg.
    + by rewrite app_empty_r.
    + cbn. intros [Hc Hw]%andb_prop. rewrite app_cons_str. cbn. rewrite Hc.
      rewrite IH by done. by rewrite app_assoc_str.
  - intros run p. revert run. induction p as [|c p IH]; intros run.
    + by rewrite app_empty_r.
    + cbn. unfold non_word at 1. intros [Hc Hp]%andb_prop.
      apply negb_true_iff in Hc. rewrite app_cons_str. cbn. rewrite Hc.
      rewrite IH by done. by rewrite app_assoc_str.
Qed.

(** The split is at the maximal runs of non-word characters: a segment of
    word characters, the run that follows it, and the split of the rest. *)
Lemma re_split_run w c p rest :
  all_chars is_word w = true →
  all_chars non_word (String c p) = true →
  match rest with "" => True | String d _ => is_word d = true end →
  re_split (w +:+ String c p +:+ rest) = w :: String c p :: re_split rest.
Proof.
  intros Hw Hp Hrest. unfold re_split.
  rewrite (proj1 (scan_append _)) by done. rewrite app_nil_str.
  cbn in Hp. apply andb_prop in Hp as [Hc Hp].
  unfold non_word in Hc. apply negb_true_iff in Hc.
  rewrite app_cons_str. cbn. rewrite Hc. f_equal.
  rewrite (proj2 (scan_append _)) by done.
  destruct rest as [|d rest]; [done|]. cbn. by rewrite Hrest.
Qed.

Lemma re_split_word w : all_chars is_word w = true → re_split w = [w].
Proof.
  intros Hw. unfold re_split.
  pose proof (proj1 (scan_append "") "" w Hw) as H.
  by rewrite app_empty_r in H.
Qed.

(** No character is lost by the split. *)
Lemma scan_concat s :
  (∀ seg, foldr String.app "" (scan_word seg s) = seg +:+ s) ∧
  (∀ run, foldr String.app "" (scan_sep run s) = run +:+ s).
Proof.
  induction s as [|c s [IHw IHs]]; (split; [intros seg|intros run]); cbn.
  - by rewrite !app_empty_r.
  - by rewrite !app_empty_r.
  - destruct (is_word c); cbn.
    + by rewrite IHw, app_assoc_str.
    + by rewrite IHs.
  - destruct (is_word c); cbn.
    + by rewrite IHw.
    + by rewrite IHs, app_assoc_str.
Qed.

Lemma re_split_concat s : foldr String.app "" (re_split s) = s.
Proof. apply scan_concat. Qed.

Lemma scan_uniform s :
  (∀ seg, all_chars is_word seg = true → Forall uniform (scan_word seg s)) ∧
  (∀ run, all_chars non_word run = true → Forall uniform (scan_sep run s)).
Proof.
  induction s as [|c s [IHw IHs]];
    (split; [intros seg Hseg|intros run Hrun]); cbn.
  - apply Forall_singleton. by left.
  - apply Forall_cons. split; [by right|]. apply Forall_singleton. by left.
  - destruct (is_word c) eqn:Hc.
    + apply IHw. rewrite all_chars_app, Hseg. cbn. by rewrite Hc.
    + constructor; [by left|]. apply IHs. cbn. unfold non_word. by rewrite Hc.
  - destruct (is_word c) eqn:Hc.
    + constructor; [by right|]. apply IHw. cbn. by rewrite Hc.
    + apply IHs. rewrite all_chars_app, Hrun. cbn. unfold non_word. by rewrite Hc.
Qed.

Lemma scan_not_all_space k s :
  (∀ seg, all_chars (isspace k) (seg +:+ s) = false →
     Exists (λ p, all_chars (isspace k) p = false) (scan_word seg s)) ∧
  (∀ run, all_chars (isspace k) (run +:+ s) = false →
     Exists (λ p, all_chars (isspace k) p = false) (scan_sep run s)).
Proof.
  induction s as [|c s [IHw IHs]];
    (split; [intros seg|intros run]); cbn; rewrite ?app_empty_r.
  - by constructor.
  - by constructor.
  - intros H. destruct (is_word c).
    + apply IHw. by rewrite app_assoc_str.
    + rewrite all_chars_app in H. apply andb_false_iff in H as [H|H].
      * by constructor.
      * apply Exists_cons_tl, IHs. exact H.
  - intros H. destruct (is_word c).
    + rewrite all_chars_app in H. apply andb_false_iff in H as [H|H].
      * by constructor.
      * apply Exists_cons_tl, IHw. exact H.
    + apply IHs. by rewrite app_assoc_str.
Qed.

(** A sentence with a character that is not white space has a token. *)
Lemma tokenize_nonempty k s :
  all_chars (isspace k) s = false → tokenize k s ≠ [].
Proof.
  intros H. unfold tokenize, re_split.
  pose proof (proj1 (scan_not_all_space k s) "" H) as Hex.
  apply Exists_exists in Hex as (p & Hin & Hp).
  assert (p ∈ filter (λ x, strip k x ≠ "") (scan_word "" s)) as Hf.
  { apply list_elem_of_filter. split; [|done].
    rewrite strip_empty. congruence. }
  destruct (filter _ _); [by apply not_elem_of_nil in Hf|done].
Qed.

Lemma tokenize_elem k sent w :
  w ∈ tokenize k sent →
  all_chars (isspace k) w = false ∧ uniform w.
Proof.
  unfold tokenize. intros (p & -> & [Hne Hp]%list_elem_of_filter)%list_elem_of_fmap.
  split.
  - destruct (all_chars (isspace k) (strip k p)) eqn:E; [|done].
    by apply strip_all_space in E.
  - pose proof (proj1 (scan_uniform sent) "" eq_refl) as Hall.
    rewrite Forall_forall in Hall. destruct (Hall p Hp) as [H|H].
    + left. by apply all_chars_strip.
    + right. by apply all_chars_strip.
Qed.

Lemma lstrip_head k s c r : lstrip k s = String c r → isspace k c = false.
Proof.
  induction s as [|c' s IH]; [done|]. cbn.
  destruct (isspace k c') eqn:Hc; [done|]. by intros [= <- _].
Qed.

Lemma rstrip_head k c s :
  isspace k c = false → ∃ r, rstrip k (String c s) = String c r.
Proof.
  intros Hc. cbn. destruct (rstrip k s); rewrite ?Hc; eauto.
Qed.

Lemma all_chars_impl (P Q : ascii → bool) s :
  (∀ c, P c = true → Q c = true) →
  all_chars P s = true → all_chars Q s = true.
Proof.
  intros HPQ. induction s as [|c s IH]; [done|]. cbn.
  intros [Hc Hs]%andb_prop. by rewrite (HPQ c Hc), IH.
Qed.

Lemma strip_no_space k s :
  all_chars (λ c, negb (isspace k c)) s = true → strip k s = s.
Proof.
  intros H. unfold strip.
  assert (lstrip k s = s) as ->.
  { destruct s as [|c s]; [done|]. cbn in *.
    apply andb_prop in H as [Hc _]. apply negb_true_iff in Hc. by rewrite Hc. }
  induction s as [|c s IH]; [done|]. cbn in *.
  apply andb_prop in H as [Hc Hs]. apply negb_true_iff in Hc.
  rewrite IH by done. destruct s; by rewrite ?Hc.
Qed.

Lemma strip_word k w : all_chars is_word w = true → strip k w = w.
Proof.
  intros H. apply strip_no_space. eapply all_chars_impl; [|exact H].
  intros c Hc. by rewrite (is_word_not_space k c Hc).
Qed.

(** What [strip] takes off is white space, and what it leaves, if
    anything, starts and ends with a character that is not. *)
Lemma lstrip_split k s :
  ∃ a, s = a +:+ lstrip k s ∧ all_chars (isspace k) a = true.
Proof.
  induction s as [|c s (a & Hs & Ha)]; [by exists ""|]. cbn.
  destruct (isspace k c) eqn:Hc; [|by exists ""].
  exists (String c a). rewrite app_cons_str, <- Hs. cbn. by rewrite Hc.
Qed.

Lemma rstrip_split k s :
  ∃ b, s = rstrip k s +:+ b ∧ all_chars (isspace k) b = true.
Proof.
  induction s as [|c s (b & Hs & Hb)]; [by exists ""|]. cbn.
  destruct (rstrip k s) as [|c' r] eqn:Hr.
  - destruct (isspace k c) eqn:Hc.
    + exists (String c b). rewrite app_nil_str in Hs. subst b.
      split; [done|]. cbn. by rewrite Hc.
    + exists b. by rewrite app_cons_str, <- Hs.
  - exists b. by rewrite app_cons_str, <- Hs.
Qed.

Lemma rstrip_ends k s : rstrip k s ≠ "" → ends_nonspace k (rstrip k s) = true.
Proof.
  induction s as [|c s IH]; [done|]. cbn.
  destruct (rstrip k s) as [|c' r].
  - destruct (isspace k c) eqn:Hc; [done|]. cbn. by rewrite Hc.
  - intros _. by apply IH.
Qed.

Lemma strip_clean k s :
  strip k s ≠ "" →
  starts_nonspace k (strip k s) = true ∧ ends_nonspace k (strip k s) = true.
Proof.
  intros Hne. split; [|by apply rstrip_ends].
  unfold strip in *. destruct (lstrip k s) as [|c z] eqn:Hz; [done|].
  apply lstrip_head in Hz. destruct (rstrip_head k c z Hz) as [r ->].
  cbn. by rewrite Hz.
Qed.

Lemma strip_split k s :
  all_chars (isspace k) s = false →
  ∃ a b, s = a +:+ strip k s +:+ b
         ∧ all_chars (isspace k) a = true ∧ all_chars (isspace k) b = true
         ∧ starts_nonspace k (strip k s) = true
         ∧ ends_nonspace k (strip k s) = true.
Proof.
  intros Hs. destruct (lstrip_split k s) as (a & Ha & Hsa).
  destruct (rstrip_split k (lstrip k s)) as (b & Hb & Hsb).
  exists a, b. fold (strip k s) in Hb. rewrite <- Hb, <- Ha.
  split; [done|]. split; [done|]. split; [done|].
  apply strip_clean. rewrite strip_empty. congruence.
Qed.

(** One step of the tokenizer: a leading word, the run of non-word
    characters after it, the rest. *)
Lemma tokenize_run_eq k w c p rest :
  all_chars is_word w = true →
  all_chars non_word (String c p) = true →
  match rest with "" => True | String d _ => is_word d = true end →
  tokenize k (w +:+ String c p +:+ rest)
  = (if decide (w = "") then [] else [w])
    ++ (if all_chars (isspace k) (String c p) then []
        else [strip k (String c p)])
    ++ tokenize k rest.
Proof.
  intros Hw Hp Hrest. unfold tokenize. rewrite re_split_run by done.
  assert (∀ x l, strip k <$> filter (λ x, strip k x ≠ "") (x :: l)
                 = (if decide (strip k x = "") then [] else [strip k x])
                   ++ (strip k <$> filter (λ x, strip k x ≠ "") l)) as Hcons.
  { intros x l. case_decide.
    - by rewrite filter_cons_False by (intros ?; done).
    - by rewrite filter_cons_True by done. }
  rewrite !Hcons, (strip_word k w Hw). f_equal. f_equal.
  destruct (all_chars (isspace k) (String c p)) eqn:E.
  - apply strip_empty in E. by rewrite decide_True.
  - rewrite decide_False; [done|]. rewrite strip_empty. congruence.
Qed.

Lemma tokenize_word k w :
  all_chars is_word w = true →
  tokenize k w = if decide (w = "") then [] else [w].
Proof.
  intros Hw. unfold tokenize. rewrite re_split_word by done.
  case_decide as Hne.
  - subst. by rewrite filter_cons_False by (intros ?; done).
  - rewrite filter_cons_True by (by rewrite strip_word).
    cbn. by rewrite strip_word.
Qed.

(** C1: the tokenizer splits at the runs of non-word characters and drops
    the fragments that are empty or white space only.
    - On the docstring's sentence it returns exactly the ten tokens listed
      there (for both string types).
    - Every token it returns has a character that is not white space and
      is either a run of word characters or (the stripped part of) a run
      of non-word characters.
    - A sentence of word characters only is one token (none if empty).
    - A sentence that goes on after its leading word [w] has a maximal run
      [r] of non-word characters there, and then a rest: its tokens are
      [w] (unless empty), then the token of [r], then the tokens of the
      rest; [r] gives no token when it is white space only, and otherwise
      the one token [m] that is left of [r] when the white space at its
      two ends is taken off.
    The last two fix the result on every sentence. *)
Theorem tokenize_words_and_punctuation :
  tokenize PyStr "Bob dropped the apple. Where is the apple?"
  = ["Bob"; "dropped"; "the"; "apple"; "."; "Where"; "is"; "the"; "apple"; "?"]
  ∧ tokenize PyUnicode "Bob dropped the apple. Where is the apple?"
  = ["Bob"; "dropped"; "the"; "apple"; "."; "Where"; "is"; "the"; "apple"; "?"]
  ∧ (∀ k sent w, w ∈ tokenize k sent →
       all_chars (isspace k) w = false ∧ uniform w)
  ∧ (∀ k w, all_chars is_word w = true →
       tokenize k w = if decide (w = "") then [] else [w])
  ∧ (∀ k w r rest,
       all_chars is_word w = true →
       r ≠ "" → all_chars non_word r = true →
       match rest with "" => True | String d _ => is_word d = true end →
       ∃ toks,
         tokenize k (w +:+ r +:+ rest)
         = (if decide (w = "") then [] else [w]) ++ toks ++ tokenize k rest
         ∧ if all_chars (isspace k) r then toks = []
           else ∃ a m b,
                  r = a +:+ m +:+ b
                  ∧ all_chars (isspace k) a = true
                  ∧ all_chars (isspace k) b = true
                  ∧ starts_nonspace k m = true
                  ∧ ends_nonspace k m = true
                  ∧ toks = [m]).
Proof.
  split; [by vm_compute|]. split; [by vm_compute|].
  split; [intros k sent w; apply tokenize_elem|].
  split; [intros k w; apply tokenize_word|].
  intros k w r rest Hw Hne Hr Hrest. destruct r as [|c p]; [done|].
  exists (if all_chars (isspace k) (String c p) then []
          else [strip k (String c p)]).
  split; [by apply tokenize_run_eq|].
  destruct (all_chars (isspace k) (String c p)) eqn:E; [done|].
  destruct (strip_split k _ E) as (a & b & Hab & Ha & Hb & Hs & He).
  by exists a, (strip k (String c p)), b.
Qed.

Lemma tokenize_words_and_punctuation_witness :
  "apple" ∈ tokenize PyStr "Bob dropped the apple. Where is the apple?"
  ∧ all_chars (isspace PyStr) "apple" = false
  ∧ uniform "apple"
  ∧ tokenize PyStr "apple" = (if decide ("apple" = "") then [] else ["apple"])
  ∧ ∃ toks,
      tokenize PyStr ("apple" +:+ ".  " +:+ "Where is")
      = (if decide ("apple" = "") then [] else ["apple"])
        ++ toks ++ tokenize PyStr "Where is"
      ∧ if all_chars (isspace PyStr) ".  " then toks = []
        else ∃ a m b,
               ".  " = a +:+ m +:+ b
               ∧ all_chars (isspace PyStr) a = true
               ∧ all_chars (isspace PyStr) b = true
               ∧ starts_nonspace PyStr m = true
               ∧ ends_nonspace PyStr m = true
               ∧ toks = [m].
Proof.
  assert ("apple" ∈ tokenize PyStr "Bob dropped the apple. Where is the apple?")
    as H by (vm_compute; do 3 right; left).
  destruct tokenize_words_and_punctuation as (_ & _ & Htok & Hword & Hrun).
  split; [exact H|].
  destruct (Htok PyStr _ _ H) as [Hns Hun].
  split; [exact Hns|]. split; [exact Hun|].
  split; [apply (Hword PyStr "apple"); reflexivity|].
  apply (Hrun PyStr "apple" ".  " "Where is");
    [reflexivity|discriminate|reflexivity|reflexivity].
Defined.

(** ** The parser, line by line *)

Lemma parse_step_record os st line :
  parse_step os st line = r ← parse_line line; record_step os st r.
Proof.
  destruct st as [data story]. unfold parse_step, parse_line.
  destruct (split_first SPACE (strip PyUnicode line)) as [[nid text]|]; [|done].
  cbn. destruct (py_int PyUnicode nid) as [n|]; [|done]. cbn.
  destruct (contains TAB text); [|done].
  by destruct (split_three TAB text) as [[[q a] sup]|].
Qed.

Lemma parse_loop_records os st lines recs :
  mapM parse_line lines = Some recs →
  parse_loop os st lines = record_loop os st recs.
Proof.
  revert st recs. induction lines as [|line lines IH]; intros st recs; cbn.
  - by intros [= <-].
  - rewrite parse_step_record.
    destruct (parse_line line) as [r|]; [|done]. cbn.
    destruct (mapM parse_line lines) as [recs'|] eqn:E; [|done]. cbn.
    intros [= <-]. cbn. destruct (record_step os st r); cbn; [|done]. eauto.
Qed.

Lemma parse_loop_is_Some os st lines :
  is_Some (parse_loop os st lines) → is_Some (mapM parse_line lines).
Proof.
  revert st. induction lines as [|line lines IH]; intros st; cbn; [eauto|].
  rewrite parse_step_record.
  destruct (parse_line line) as [r|]; cbn; [|by intros [? ?]].
  destruct (record_step os st r) as [st'|]; cbn; [|by intros [? ?]].
  intros [recs ->]%IH. cbn. eauto.
Qed.

Lemma parse_line_ok line r : parse_line line = Some r → record_ok r.
Proof.
  unfold parse_line.
  destruct (split_first SPACE (strip PyUnicode line)) as [[nid text]|] eqn:E;
    [|done].
  apply split_first_join in E. cbn.
  destruct (py_int PyUnicode nid) as [n|]; [|done]. cbn.
  destruct (contains TAB text).
  - destruct (split_three TAB text) as [[[q a] sup]|] eqn:E3; [|done].
    apply split_three_join in E3. subst text. intros [= <-]. cbn.
    destruct (all_chars (isspace PyUnicode) sup) eqn:Hsup; [|done].
    exfalso.
    rewrite <- app_cons_str, <- app_assoc_str, <- app_cons_str,
      <- app_assoc_str in E.
    apply strip_no_space_suffix in E; [done|]. cbn. by rewrite Hsup.
  - intros [= <-]. cbn.
    destruct (all_chars (isspace PyUnicode) text) eqn:Htext; [|done].
    exfalso. apply strip_no_space_suffix in E; [done|]. cbn. by rewrite Htext.
Qed.

Lemma mapM_parse_line_ok lines recs :
  mapM parse_line lines = Some recs → Forall record_ok recs.
Proof.
  intros H%mapM_Some_1. induction H; constructor; eauto using parse_line_ok.
Qed.

Lemma record_loop_app os st l1 l2 :
  record_loop os st (l1 ++ l2)
  = st' ← record_loop os st l1; record_loop os st' l2.
Proof.
  revert st. induction l1 as [|r l1 IH]; intros st; cbn; [done|].
  destruct (record_step os st r); cbn; [|done]. apply IH.
Qed.

Lemma parse_loop_app os st l1 l2 :
  parse_loop os st (l1 ++ l2)
  = st' ← parse_loop os st l1; parse_loop os st' l2.
Proof.
  revert st. induction l1 as [|r l1 IH]; intros st; cbn; [done|].
  destruct (parse_step os st r); cbn; [|done]. apply IH.
Qed.

(** [data] only grows. *)
Lemma record_step_data os data story r data' story' :
  record_step os (data, story) r = Some (data', story') →
  ∃ more, data' = data ++ more.
Proof.
  destruct r as [n text|n q a sup]; cbn.
  - intros [= <- <-]. exists []. by rewrite app_nil_r.
  - intros H. apply bind_Some in H as (sub & _ & [= <- <-]). eauto.
Qed.

Lemma parse_loop_data os data story lines data' story' :
  parse_loop os (data, story) lines = Some (data', story') →
  ∃ more, data' = data ++ more.
Proof.
  revert data story.
  induction lines as [|line lines IH]; intros data story; cbn [parse_loop].
  - intros [= <- <-]. exists []. by rewrite app_nil_r.
  - rewrite parse_step_record. intros H.
    apply bind_Some in H as ([d1 s1] & H1 & H2).
    apply bind_Some in H1 as (r & _ & H1).
    apply record_step_data in H1 as [m1 ->].
    apply IH in H2 as [m2 ->]. exists (m1 ++ m2). by rewrite app_assoc.
Qed.

(** ** get_stories *)

Lemma py_index_nil {A} (i : Z) : py_index (@nil A) i = None.
Proof. unfold py_index. by repeat case_match. Qed.

Lemma record_step_question_empty os data story n q a sup :
  record_ok (Question n q a sup) →
  n = 1 ∨ story = [] →
  record_step os (data, story) (Question n q a sup)
  = if os then None else Some (data ++ [([], tokenize PyUnicode q, a)], [Blank]).
Proof.
  intros Hok Hcase. cbn.
  assert ((if n =? 1 then [] else story) = []) as ->.
  { destruct Hcase as [->| ->]; [done|]. by destruct (n =? 1). }
  destruct os; [|done].
  apply split_ws_nonempty in Hok. unfold supporting_indices.
  destruct (split_ws PyUnicode sup) as [|w ws]; [done|]. cbn.
  destruct (py_int PyUnicode w) as [i|]; [|done]. cbn.
  destruct (mapM (py_int PyUnicode) ws); [|done]. cbn.
  by rewrite py_index_nil.
Qed.

Lemma keep_flattened_empty_story max_length d1 q a d2 :
  keep_flattened max_length (d1 ++ ([], q, a) :: d2) = None.
Proof.
  induction d1 as [|[[s q'] a'] d1 IH]; cbn [app keep_flattened].
  - destruct max_length as [m|]; cbn; [|done]. by destruct (m =? 0).
  - destruct (keeps max_length s) as [[|]|]; opt_simpl; [|done..].
    destruct (flatten s); opt_simpl; [|done]. by rewrite IH.
Qed.

(** C10: an episode that begins with a question record makes
    [get_stories] fail: when a question is on a line numbered 1, or on the
    first line of the input, there is no result, whatever comes before and
    after it and whatever the mode and [max_length].  (With all the
    sentences kept, the substory is the empty list and flattening it is a
    [reduce] of an empty sequence without initial value; with the
    supporting facts only, the index into the empty buffer fails already
    in [parse_stories].) *)
Theorem get_stories_fails_on_leading_question
    before line after n q a supporting only_supporting max_length :
  parse_line line = Some (Question n q a supporting) →
  n = 1 ∨ before = [] →
  get_stories (before ++ line :: after) only_supporting max_length = None.
Proof.
  intros Hline Hcase. pose proof (parse_line_ok _ _ Hline) as Hok.
  unfold get_stories, parse_stories. rewrite parse_loop_app.
  destruct (parse_loop only_supporting ([], []) before) as [[d1 s1]|] eqn:E1;
    [|done].
  assert (n = 1 ∨ s1 = []) as Hcase1.
  { destruct Hcase as [?| ->]; [by left|]. cbn in E1. right. congruence. }
  cbn [mbind option_bind parse_loop]. rewrite parse_step_record, Hline.
  cbn [mbind option_bind]. rewrite record_step_question_empty by done.
  destruct only_supporting; [done|]. cbn [mbind option_bind].
  destruct (parse_loop false _ after) as [[d3 s3]|] eqn:E; [|done].
  apply parse_loop_data in E as [more ->]. cbn [mbind option_bind].
  rewrite <- app_assoc. apply keep_flattened_empty_story.
Qed.

Lemma get_stories_fails_on_leading_question_witness :
  parse_line (qline "1 Where is Mary? " "bathroom" "1")
  = Some (Question 1 "Where is Mary? " "bathroom" "1")
  ∧ (1 = 1 ∨ ["5 John went to the hallway."] = [])
  ∧ get_stories (["5 John went to the hallway."]
                 ++ qline "1 Where is Mary? " "bathroom" "1"
                 :: ["2 Mary moved to the bathroom."]) false None = None.
Proof.
  split; [reflexivity|]. split; [by left|].
  apply (get_stories_fails_on_leading_question
           ["5 John went to the hallway."]
           (qline "1 Where is Mary? " "bathroom" "1")
           ["2 Mary moved to the bathroom."]
           1 "Where is Mary? " "bathroom" "1" false None);
    [reflexivity|by left].
Defined.

Example get_stories_leading_question_supporting :
  get_stories [qline "1 Where is Mary? " "bathroom" "1";
               "2 Mary moved to the bathroom."] true None = None.
Proof. vm_compute. reflexivity. Qed.

Lemma keep_flattened_nonzero m data :
  m ≠ 0 →
  keep_flattened (Some m) data
  = flat ← mapM flatten_triple data;
    Some (filter (λ t, item_len t.1.1 < m) flat).
Proof.
  intros Hm. induction data as [|[[story q] a] data IH]; [done|].
  cbn [keep_flattened mapM flatten_triple keeps].
  destruct (Z.eqb_spec m 0) as [|_]; [done|].
  destruct (flatten story) as [s|]; opt_simpl; [|done].
  rewrite IH. destruct (Z.ltb_spec (item_len s) m).
  - destruct (mapM flatten_triple data); opt_simpl; [|done].
    by rewrite filter_cons_True.
  - destruct (mapM flatten_triple data); opt_simpl; [|done].
    rewrite filter_cons_False; [done|]. cbn. lia.
Qed.

(** With a [max_length] that is neither [None] nor 0, [get_stories]
    keeps exactly the parsed triples whose flattened story has strictly
    fewer than [max_length] tokens (a story of exactly [max_length] tokens
    is dropped), and fails when a story cannot be flattened. *)
Theorem get_stories_max_length lines only_supporting m :
  m ≠ 0 →
  get_stories lines only_supporting (Some m)
  = data ← parse_stories lines only_supporting;
    flat ← mapM flatten_triple data;
    Some (filter (λ t, item_len t.1.1 < m) flat).
Proof.
  intros Hm. unfold get_stories.
  destruct (parse_stories lines only_supporting); [|done].
  by apply keep_flattened_nonzero.
Qed.

Lemma get_stories_max_length_witness :
  13 ≠ 0 ∧
  get_stories sample false (Some 13)
  = data ← parse_stories sample false;
    flat ← mapM flatten_triple data;
    Some (filter (λ t, item_len t.1.1 < 13) flat).
Proof. split; [lia|]. apply (get_stories_max_length sample false 13). lia. Defined.

Example get_stories_sample_13 :
  get_stories sample false (Some 13)
  = Some [ (Toks ["Mary"; "moved"; "to"; "the"; "bathroom"; ".";
                  "John"; "went"; "to"; "the"; "hallway"; "."],
            ["Where"; "is"; "Mary"; "?"], "bathroom");
           (Toks ["Sandra"; "moved"; "to"; "the"; "garden"; "."],
            ["Where"; "is"; "Sandra"; "?"], "garden") ].
Proof. vm_compute. reflexivity. Qed.

(** A story of exactly [max_length] tokens is dropped. *)
Example get_stories_sample_12 :
  get_stories sample false (Some 12)
  = Some [ (Toks ["Sandra"; "moved"; "to"; "the"; "garden"; "."],
            ["Where"; "is"; "Sandra"; "?"], "garden") ].
Proof. vm_compute. reflexivity. Qed.

(** C9: with a [max_length] that is not [None], [get_stories] should keep
    exactly the triples whose flattened story has fewer than [max_length]
    tokens, and the docstring says that, if [max_length] is supplied, any
    story longer than it is discarded.  At [max_length = 0] the code does
    neither: [not max_length] holds, so nothing is filtered, and the three
    stories of the sample (of 12, 19 and 6 tokens) are all kept, while no
    story has fewer than 0 tokens. *)
Lemma get_stories_max_length_zero :
  get_stories sample false (Some 0)
  = Some [ (Toks ["Mary"; "moved"; "to"; "the"; "bathroom"; ".";
                  "John"; "went"; "to"; "the"; "hallway"; "."],
            ["Where"; "is"; "Mary"; "?"], "bathroom");
           (Toks ["Mary"; "moved"; "to"; "the"; "bathroom"; ".";
                  "John"; "went"; "to"; "the"; "hallway"; ".";
                  "Daniel"; "went"; "back"; "to"; "the"; "hallway"; "."],
            ["Where"; "is"; "Daniel"; "?"], "hallway");
           (Toks ["Sandra"; "moved"; "to"; "the"; "garden"; "."],
            ["Where"; "is"; "Sandra"; "?"], "garden") ]
  ∧ get_stories sample false (Some 0)
    ≠ (data ← parse_stories sample false;
       flat ← mapM flatten_triple data;
       Some (filter (λ t, item_len t.1.1 < 0) flat)).
Proof. split; [by vm_compute|]. vm_compute. discriminate. Qed.



(** *** The default mode returns stories that are token lists *)

Lemma record_step_truthy data story r data' story' :
  Forall (λ t : triple, Forall (λ x, truthy x = true) t.1.1) data →
  record_step false (data, story) r = Some (data', story') →
  Forall (λ t : triple, Forall (λ x, truthy x = true) t.1.1) data'.
Proof.
  intros Hdata. destruct r as [n text|n q a sup]; cbn.
  - by intros [= <- <-].
  - intros [= <- <-]. apply Forall_app. split; [done|].
    apply Forall_singleton. cbn. apply Forall_forall.
    by intros x [? _]%list_elem_of_filter.
Qed.

Lemma parse_loop_truthy lines : ∀ data story data' story',
  Forall (λ t : triple, Forall (λ x, truthy x = true) t.1.1) data →
  parse_loop false (data, story) lines = Some (data', story') →
  Forall (λ t : triple, Forall (λ x, truthy x = true) t.1.1) data'.
Proof.
  induction lines as [|line lines IH]; intros data story data' story' Hdata;
    cbn [parse_loop].
  - by intros [= <- <-].
  - rewrite parse_step_record. intros H.
    apply bind_Some in H as ([d1 s1] & H1 & H2).
    apply bind_Some in H1 as (r & _ & H1).
    eapply IH; [|exact H2]. by eapply record_step_truthy.
Qed.

Lemma reduce_add_tokens l : ∀ ws s,
  Forall (λ x, truthy x = true) l → ws ≠ [] →
  reduce_add (Toks ws) l = Some s → ∃ ws', s = Toks ws' ∧ ws' ≠ [].
Proof.
  induction l as [|y l IH]; intros ws s Hl Hws; cbn.
  - intros [= <-]. eauto.
  - apply Forall_cons in Hl as [Hy Hl].
    destruct y as [[|w ws1]|]; try done. cbn. apply IH; [done|].
    by destruct ws.
Qed.

Lemma flatten_tokens story s :
  Forall (λ x, truthy x = true) story → flatten story = Some s →
  ∃ ws, s = Toks ws ∧ ws ≠ [].
Proof.
  destruct story as [|x story]; [done|]. intros [Hx Hs]%Forall_cons. cbn.
  destruct x as [[|w ws]|]; try done. by apply reduce_add_tokens.
Qed.

Lemma keep_flattened_stories max_length data : ∀ res,
  keep_flattened max_length data = Some res →
  Forall (λ t : flat_triple,
            ∃ story, flatten story = Some t.1.1
                     ∧ (story, t.1.2, t.2) ∈ data) res.
Proof.
  induction data as [|[[story q] a] data IH]; intros res; cbn.
  - by intros [= <-].
  - intros H. apply bind_Some in H as (keep & _ & H). destruct keep.
    + apply bind_Some in H as (s & Hs & H).
      apply bind_Some in H as (rest & Hrest & [= <-]).
      apply Forall_cons. split.
      * exists story. split; [done|left].
      * eapply Forall_impl; [by apply IH|]. cbn.
        intros t (story' & ? & ?). exists story'. split; [done|by right].
    + eapply Forall_impl; [by apply IH|]. cbn.
      intros t (story' & ? & ?). exists story'. split; [done|by right].
Qed.

(** With all the sentences kept, every story that [get_stories] returns is
    a list of at least one token. *)
Lemma get_stories_default_tokens lines max_length data :
  get_stories lines false max_length = Some data →
  Forall (λ t : flat_triple, ∃ ws, t.1.1 = Toks ws ∧ ws ≠ []) data.
Proof.
  unfold get_stories, parse_stories. intros H.
  apply bind_Some in H as (d0 & H0 & H).
  apply bind_Some in H0 as ([d0' s0] & H0 & [= <-]).
  apply parse_loop_truthy in H0; [|done].
  apply keep_flattened_stories in H.
  eapply Forall_impl; [exact H|]. cbn. intros t (story & Hflat & Hin).
  rewrite Forall_forall in H0. apply H0 in Hin. cbn in Hin.
  by eapply flatten_tokens.
Qed.

(** ** The parser, episode by episode *)

Lemma current_episode_snoc before r :
  current_episode (before ++ [r])
  = episode_before r (current_episode before) ++ [r].
Proof.
  unfold episode_before. induction before as [|x before IH]; cbn.
  - by destruct (nid_of r =? 1).
  - rewrite existsb_app. cbn. rewrite orb_false_r, IH.
    destruct (nid_of r =? 1); [by rewrite orb_true_r|].
    rewrite orb_false_r. by destruct (existsb _ before).
Qed.

Lemma record_step_episode os data episode r :
  record_step os (data, item_of <$> episode) r
  = record_step os (data, item_of <$> episode_before r episode) r.
Proof.
  unfold episode_before. destruct r; cbn; by destruct (_ =? 1).
Qed.

Lemma nid_of_episode_before r episode : nid_of r ≠ 1 ∨ episode_before r episode = [].
Proof. unfold episode_before. destruct (Z.eqb_spec (nid_of r) 1); auto. Qed.

Lemma record_step_narrative os data episode n text :
  let r := Narrative n text in
  record_step os (data, item_of <$> episode) r
  = Some (data, item_of <$> (episode_before r episode ++ [r])).
Proof.
  intros r. rewrite record_step_episode. unfold episode_before, r. cbn.
  destruct (n =? 1); cbn; [done|]. by rewrite fmap_app.
Qed.

Lemma record_step_question os data episode n q a sup :
  let r := Question n q a sup in
  let story := item_of <$> episode_before r episode in
  record_step os (data, item_of <$> episode) r
  = substory ←
      (if os then
         supporting ← supporting_indices sup;
         mapM (λ i, py_index story (i - 1)) supporting
       else Some (filter (λ x, truthy x = true) story));
    Some (data ++ [(substory, tokenize PyUnicode q, a)],
          item_of <$> (episode_before r episode ++ [r])).
Proof.
  intros r story. rewrite record_step_episode. unfold story, episode_before, r.
  cbn. destruct (n =? 1); cbn; [done|]. by rewrite fmap_app.
Qed.

Lemma sentences_where_app sel l1 l2 :
  sentences_where sel (l1 ++ l2) = sentences_where sel l1 ++ sentences_where sel l2.
Proof. apply flat_map_app. Qed.

Lemma sentences_where_cons sel r l :
  sentences_where sel (r :: l)
  = sentences_where sel [r] ++ sentences_where sel l.
Proof. apply (sentences_where_app sel [r] l). Qed.

Lemma sentences_where_none sel l :
  Forall (λ r, sel (nid_of r) = false) l → sentences_where sel l = [].
Proof.
  induction 1 as [|r l Hr _ IH]; [done|].
  rewrite sentences_where_cons, IH.
  destruct r; cbn in *; [by rewrite Hr|done].
Qed.

(** With all the sentences kept: the truthy buffer entries are the
    sentences, when all their numbers are below the question's. *)
Lemma filter_truthy_sentences n episode :
  Forall (λ r, nid_of r < n) episode → Forall record_ok episode →
  filter (λ x, truthy x = true) (item_of <$> episode)
  = sentences_where (λ m, m <? n) episode.
Proof.
  induction 1 as [|r l Hr _ IH]; [done|]. intros [Hok Hl]%Forall_cons.
  rewrite sentences_where_cons, fmap_cons, <- IH by done.
  destruct r as [m text|m q a sup]; cbn in Hr, Hok.
  - apply (tokenize_nonempty PyUnicode) in Hok.
    rewrite filter_cons_True.
    + cbn. by destruct (Z.ltb_spec m n); [|lia].
    + cbn. by destruct (tokenize PyUnicode text).
  - by rewrite filter_cons_False.
Qed.

Lemma record_loop_all_sentences rest : ∀ before data prev,
  numbers_increase prev rest = true →
  Forall (λ r, ∃ p, prev = Some p ∧ nid_of r ≤ p) (current_episode before) →
  Forall record_ok (current_episode before) →
  Forall record_ok rest →
  record_loop false (data, item_of <$> current_episode before) rest
  = Some (data ++ triples_of (λ episode n _, story_before episode n) before rest,
          item_of <$> current_episode (before ++ rest)).
Proof.
  induction rest as [|r rest IH]; intros before data prev Hinc Hbound Hok Hrest.
  { cbn. by rewrite !app_nil_r. }
  cbn in Hinc. apply andb_prop in Hinc as [Hr Hinc].
  apply Forall_cons in Hrest as [Hokr Hrest].
  set (ep0 := episode_before r (current_episode before)).
  assert (Forall (λ r', nid_of r' < nid_of r) ep0) as Hlt.
  { unfold ep0, episode_before. destruct (Z.eqb_spec (nid_of r) 1); [done|].
    eapply Forall_impl; [exact Hbound|]. cbn. intros r' (p & -> & Hle).
    cbn in Hr. destruct (Z.ltb_spec p (nid_of r)); [lia|done]. }
  assert (Forall record_ok ep0) as Hok0.
  { unfold ep0, episode_before. by destruct (_ =? 1). }
  assert (∀ data',
            record_loop false
              (data', item_of <$> current_episode (before ++ [r])) rest
            = Some (data' ++ triples_of (λ episode n _, story_before episode n)
                               (before ++ [r]) rest,
                    item_of <$> current_episode ((before ++ [r]) ++ rest)))
    as IH1.
  { intros data'. apply (IH _ _ (Some (nid_of r))); [done| | |done].
    - rewrite current_episode_snoc. apply Forall_app. split.
      + eapply Forall_impl; [exact Hlt|]. cbn. intros r' ?.
        exists (nid_of r). split; [done|lia].
      + apply Forall_singleton. exists (nid_of r). split; [done|lia].
    - rewrite current_episode_snoc. apply Forall_app.
      split; [done|by apply Forall_singleton]. }
  rewrite <- (app_assoc before [r] rest) in IH1. cbn [app] in IH1.
  clear IH. cbn [record_loop triples_of]. destruct r as [n text|n q a sup].
  - rewrite record_step_narrative. opt_simpl.
    rewrite <- current_episode_snoc. by rewrite IH1.
  - rewrite record_step_question. opt_simpl.
    rewrite <- current_episode_snoc.
    rewrite (filter_truthy_sentences n) by done.
    assert (story_before (current_episode (before ++ [Question n q a sup])) n
            = sentences_where (λ m, m <? n) ep0) as ->.
    { rewrite current_episode_snoc. unfold story_before.
      rewrite sentences_where_app. cbn. by rewrite app_nil_r. }
    rewrite IH1. by rewrite <- app_assoc.
Qed.

(** C2, amended: when the line numbers increase inside each episode (each
    line is numbered 1 or higher than the line before it), [parse_stories]
    with all the sentences kept returns one triple per question line, in
    order, and the story of each is exactly the tokenized narrative
    sentences of the question's episode whose line numbers are less than
    the question's: the buffer starts again at a line numbered 1, and a
    question leaves no sentence in later stories. *)
Theorem parse_stories_story_before lines recs :
  mapM parse_line lines = Some recs →
  numbers_increase None recs = true →
  parse_stories lines false = Some (stories_by_line_number recs).
Proof.
  intros Hrecs Hinc. unfold parse_stories.
  rewrite (parse_loop_records _ _ _ _ Hrecs).
  pose proof (record_loop_all_sentences recs [] [] None Hinc) as H.
  cbn in H. rewrite H; [done|by constructor..|].
  by eapply mapM_parse_line_ok.
Qed.

Lemma parse_stories_story_before_witness :
  mapM parse_line sample = Some sample_records
  ∧ numbers_increase None sample_records = true
  ∧ parse_stories sample false = Some (stories_by_line_number sample_records).
Proof.
  split; [reflexivity|]. split; [reflexivity|].
  apply (parse_stories_story_before sample sample_records); reflexivity.
Defined.

(** C2 as stated fails on lines whose numbers do not increase: the parser
    never compares line numbers, so the sentence numbered 5 is in the story
    of the question numbered 3 that follows it. *)
Lemma parse_stories_out_of_order :
  parse_stories out_of_order false
  = Some [ ([Toks ["Mary"; "moved"; "to"; "the"; "bathroom"; "."];
             Toks ["John"; "went"; "to"; "the"; "hallway"; "."]],
            ["Where"; "is"; "Mary"; "?"], "bathroom") ]
  ∧ stories_by_line_number <$> mapM parse_line out_of_order
  = Some [ ([Toks ["Mary"; "moved"; "to"; "the"; "bathroom"; "."]],
            ["Where"; "is"; "Mary"; "?"], "bathroom") ]
  ∧ parse_stories out_of_order false
    ≠ stories_by_line_number <$> mapM parse_line out_of_order.
Proof. split; [by vm_compute|]. split; [by vm_compute|]. vm_compute. discriminate. Qed.

(** ** Supporting facts only *)

Lemma numbered_snoc r episode :
  numbered episode → nid_of r = Z.of_nat (length episode) + 1 →
  numbered (episode ++ [r]).
Proof.
  intros Hnum Hr j r' Hj. destruct (decide (j < length episode)%nat) as [Hlt|Hge].
  - rewrite lookup_app_l in Hj by done. by apply Hnum.
  - rewrite lookup_app_r in Hj by lia.
    apply list_lookup_singleton_Some in Hj as [Hj <-]. rewrite Hr. lia.
Qed.

Lemma sentences_where_numbered episode j i text :
  numbered episode → episode !! j = Some (Narrative i text) →
  sentences_where (λ m, m =? i) episode = [Toks (tokenize PyUnicode text)].
Proof.
  intros Hnum Hj. pose proof (Hnum _ _ Hj) as Hi. cbn in Hi.
  rewrite <- (take_drop_middle _ _ _ Hj).
  rewrite sentences_where_app, sentences_where_cons.
  rewrite (sentences_where_none _ (take j episode)),
    (sentences_where_none _ (drop (S j) episode)).
  - cbn. by rewrite Z.eqb_refl.
  - apply Forall_lookup. intros j' r' Hr'. rewrite lookup_drop in Hr'.
    apply Hnum in Hr'. apply Z.eqb_neq. lia.
  - apply Forall_lookup. intros j' r' Hr'.
    apply lookup_take_Some in Hr' as [Hr' Hlt].
    apply Hnum in Hr'. apply Z.eqb_neq. lia.
Qed.

Lemma py_index_ge0 {A} (l : list A) (j : nat) x :
  l !! j = Some x → py_index l (Z.of_nat j) = Some x.
Proof.
  intros Hj. pose proof (lookup_lt_Some _ _ _ Hj). unfold py_index.
  destruct (Z.leb_spec 0 (Z.of_nat j)); [|lia].
  destruct (Z.ltb_spec (Z.of_nat j) (Z.of_nat (length l))); [|lia].
  cbn. by rewrite Nat2Z.id.
Qed.

(** One supporting index that names a sentence of the episode: indexing
    the buffer gives this sentence, and so do the spec's words. *)
Lemma supporting_lookup episode n q a sup i :
  numbered episode →
  existsb (λ r', match r' with
                 | Narrative m _ => m =? i
                 | Question _ _ _ _ => false
                 end) (episode ++ [Question n q a sup]) = true →
  ∃ x, py_index (item_of <$> episode) (i - 1) = Some x
       ∧ sentences_where (λ m, m =? i) (episode ++ [Question n q a sup]) = [x].
Proof.
  intros Hnum (r' & Hin & Hr')%existsb_exists.
  destruct r' as [m text|]; [|done]. apply Z.eqb_eq in Hr' as ->.
  apply in_app_or in Hin as [Hin|[Hin|[]]]; [|done].
  apply list_elem_of_In, list_elem_of_lookup in Hin as [j Hj].
  exists (Toks (tokenize PyUnicode text)). split.
  - pose proof (Hnum _ _ Hj) as Hi. cbn in Hi.
    replace (i - 1) with (Z.of_nat j) by lia.
    apply py_index_ge0. by rewrite list_lookup_fmap, Hj.
  - rewrite sentences_where_app. cbn. rewrite app_nil_r.
    by eapply sentences_where_numbered.
Qed.

Lemma supporting_story episode n q a sup l :
  numbered episode →
  forallb (λ i, existsb (λ r', match r' with
                               | Narrative m _ => m =? i
                               | Question _ _ _ _ => false
                               end) (episode ++ [Question n q a sup])) l = true →
  mapM (λ i, py_index (item_of <$> episode) (i - 1)) l
  = Some (story_supporting (episode ++ [Question n q a sup]) l).
Proof.
  intros Hnum. induction l as [|i l IH]; [done|]. cbn [forallb].
  intros [Hi Hl]%andb_prop.
  destruct (supporting_lookup _ _ _ _ _ _ Hnum Hi) as (x & Hx & Hs).
  cbn [mapM]. rewrite Hx, (IH Hl). opt_simpl. unfold story_supporting.
  cbn [flat_map]. by rewrite Hs.
Qed.

Lemma record_loop_supporting rest : ∀ before data prev,
  numbers_consecutive prev rest = true →
  prev = Z.of_nat (length (current_episode before)) →
  numbered (current_episode before) →
  supporting_are_sentences before rest = true →
  record_loop true (data, item_of <$> current_episode before) rest
  = Some (data ++ triples_of
                    (λ episode _ supporting,
                       story_supporting episode
                         (default [] (supporting_indices supporting)))
                    before rest,
          item_of <$> current_episode (before ++ rest)).
Proof.
  induction rest as [|r rest IH]; intros before data prev Hcons Hprev Hnum Hsup.
  { cbn. by rewrite !app_nil_r. }
  cbn in Hcons. apply andb_prop in Hcons as [Hr Hcons].
  cbn [supporting_are_sentences] in Hsup. apply andb_prop in Hsup as [Hsr Hsup].
  set (ep0 := episode_before r (current_episode before)) in *.
  assert (numbered ep0 ∧ nid_of r = Z.of_nat (length ep0) + 1) as [Hnum0 Hlen].
  { unfold ep0, episode_before. destruct (Z.eqb_spec (nid_of r) 1) as [->|Hne].
    - split; [by intros j r' ?|done].
    - split; [done|]. cbn in Hr. apply Z.eqb_eq in Hr. lia. }
  assert (∀ data',
            record_loop true
              (data', item_of <$> current_episode (before ++ [r])) rest
            = Some (data' ++ triples_of
                               (λ episode _ supporting,
                                  story_supporting episode
                                    (default [] (supporting_indices supporting)))
                               (before ++ [r]) rest,
                    item_of <$> current_episode ((before ++ [r]) ++ rest)))
    as IH1.
  { intros data'. apply (IH _ _ (nid_of r)); [done| | |done].
    - rewrite current_episode_snoc, length_app. fold ep0. cbn. lia.
    - rewrite current_episode_snoc. by apply numbered_snoc. }
  rewrite <- (app_assoc before [r] rest) in IH1. cbn [app] in IH1.
  pose proof (current_episode_snoc before r) as Hep. fold ep0 in Hep.
  clear IH. cbn [record_loop triples_of]. destruct r as [n text|n q a sup].
  - rewrite record_step_narrative. opt_simpl. fold ep0.
    rewrite <- Hep. by rewrite IH1.
  - rewrite record_step_question. fold ep0. rewrite Hep in Hsr.
    destruct (supporting_indices sup) as [l|] eqn:El; [|done].
    opt_simpl. rewrite (supporting_story _ n q a sup) by done. opt_simpl.
    rewrite <- Hep at 2. rewrite IH1, Hep. cbn [default].
    by rewrite <- app_assoc.
Qed.

(** C3, amended: when the lines are numbered 1, 2, 3, ... inside each
    episode and every supporting-fact index of every question is the line
    number of a narrative sentence of the question's episode,
    [parse_stories] with [only_supporting] returns one triple per question
    line, in order, and the story of each is exactly the sentences whose
    line numbers are in the question's supporting-fact list, in the order of
    that list. *)
Theorem parse_stories_supporting_facts lines recs :
  mapM parse_line lines = Some recs →
  numbers_consecutive 0 recs = true →
  supporting_are_sentences [] recs = true →
  parse_stories lines true = Some (stories_by_supporting recs).
Proof.
  intros Hrecs Hcons Hsup. unfold parse_stories.
  rewrite (parse_loop_records _ _ _ _ Hrecs).
  pose proof (record_loop_supporting recs [] [] 0 Hcons) as H.
  cbn in H. rewrite H; [done..| |done]. by intros j r ?.
Qed.

Lemma parse_stories_supporting_facts_witness :
  mapM parse_line sample = Some sample_records
  ∧ numbers_consecutive 0 sample_records = true
  ∧ supporting_are_sentences [] sample_records = true
  ∧ parse_stories sample true = Some (stories_by_supporting sample_records).
Proof.
  split; [reflexivity|]. split; [reflexivity|]. split; [reflexivity|].
  apply (parse_stories_supporting_facts sample sample_records); reflexivity.
Defined.

(** C3 as stated fails on lines that are not numbered consecutively: a
    supporting index selects a position of the buffer, not a line number,
    so index 2 selects the second line of the episode, which is numbered 3,
    while no sentence is numbered 2. *)
Lemma parse_stories_gap_in_numbers :
  parse_stories gap_in_numbers true
  = Some [ ([Toks ["John"; "went"; "to"; "the"; "hallway"; "."]],
            ["Where"; "is"; "John"; "?"], "hallway") ]
  ∧ stories_by_supporting <$> mapM parse_line gap_in_numbers
  = Some [ ([], ["Where"; "is"; "John"; "?"], "hallway") ]
  ∧ parse_stories gap_in_numbers true
    ≠ stories_by_supporting <$> mapM parse_line gap_in_numbers.
Proof. split; [by vm_compute|]. split; [by vm_compute|]. vm_compute. discriminate. Qed.

(** A supporting index that names a question line selects the [''] left
    in the buffer, and an index of 0 selects the last entry. *)
Example parse_stories_supporting_question_line :
  parse_stories [ "1 Mary moved to the bathroom.";
                  qline "2 Where is Mary? " "bathroom" "1";
                  qline "3 Where is Mary? " "bathroom" "2" ] true
  = Some [ ([Toks ["Mary"; "moved"; "to"; "the"; "bathroom"; "."]],
            ["Where"; "is"; "Mary"; "?"], "bathroom");
           ([Blank], ["Where"; "is"; "Mary"; "?"], "bathroom") ].
Proof. vm_compute. reflexivity. Qed.

Example parse_stories_supporting_index_zero :
  parse_stories [ "1 Mary moved to the bathroom.";
                  "2 John went to the hallway.";
                  qline "3 Where is Mary? " "bathroom" "0" ] true
  = Some [ ([Toks ["John"; "went"; "to"; "the"; "hallway"; "."]],
            ["Where"; "is"; "Mary"; "?"], "bathroom") ].
Proof. vm_compute. reflexivity. Qed.

(** ** The vectorizer *)

Lemma length_pad_row maxlen s : length (pad_row maxlen s) = maxlen.
Proof.
  unfold pad_row. rewrite length_app, length_replicate, length_drop. lia.
Qed.

Lemma pad_row_short maxlen s :
  (length s ≤ maxlen)%nat →
  pad_row maxlen s = replicate (maxlen - length s) 0%nat ++ s.
Proof.
  intros H. unfold pad_row.
  by replace (length s - maxlen)%nat with 0%nat by lia.
Qed.

Lemma vectorize_loop_rows word_idx data : ∀ X Xq Y,
  vectorize_loop word_idx data X Xq Y
  = rows ← mapM (vectorize_one word_idx) data;
    Some (X ++ ((λ r, r.1.1) <$> rows),
          Xq ++ ((λ r, r.1.2) <$> rows),
          Y ++ ((λ r, r.2) <$> rows)).
Proof.
  induction data as [|[[story query] answer] data IH]; intros X Xq Y.
  { cbn. by rewrite !app_nil_r. }
  cbn [vectorize_loop mapM vectorize_one].
  destruct (mapM (λ w, word_idx !! w) (item_words story)) as [x|]; [|done].
  destruct (mapM (λ w, word_idx !! w) query) as [xq|]; [|done].
  destruct (word_idx !! answer) as [k|]; [|done].
  opt_simpl. destruct (one_hot (size word_idx + 1) k) as [y|]; [|done].
  opt_simpl. rewrite IH.
  destruct (mapM (vectorize_one word_idx) data) as [rows|]; [|done].
  opt_simpl. cbn [fmap list_fmap]. by rewrite <- !app_assoc.
Qed.

Lemma vectorize_stories_rows data word_idx story_maxlen query_maxlen X Xq Y :
  vectorize_stories data word_idx story_maxlen query_maxlen = Some (X, Xq, Y) →
  ∃ rows, mapM (vectorize_one word_idx) data = Some rows
    ∧ X = pad_row story_maxlen <$> ((λ r, r.1.1) <$> rows)
    ∧ Xq = pad_row query_maxlen <$> ((λ r, r.1.2) <$> rows)
    ∧ Y = (λ r, r.2) <$> rows.
Proof.
  unfold vectorize_stories. rewrite vectorize_loop_rows.
  destruct (mapM (vectorize_one word_idx) data) as [rows|]; [|done].
  opt_simpl. intros [= <- <- <-]. eauto.
Qed.

Lemma vectorize_one_Some word_idx story query answer r :
  vectorize_one word_idx (story, query, answer) = Some r →
  mapM (λ w, word_idx !! w) (item_words story) = Some r.1.1
  ∧ mapM (λ w, word_idx !! w) query = Some r.1.2
  ∧ ∃ k, word_idx !! answer = Some k
         ∧ one_hot (size word_idx + 1) k = Some r.2.
Proof.
  unfold vectorize_one.
  destruct (mapM (λ w, word_idx !! w) (item_words story)) as [x|]; [|done].
  destruct (mapM (λ w, word_idx !! w) query) as [xq|]; [|done].
  destruct (word_idx !! answer) as [k|]; [|done].
  opt_simpl. destruct (one_hot (size word_idx + 1) k) as [y|] eqn:Ey; [|done].
  opt_simpl. intros [= <-]. cbn. split; [done|]. split; [done|]. by exists k.
Qed.

(** C4: every row of stories and of queries that [vectorize_stories]
    returns has exactly the configured maximum length, and a story or
    query with no more tokens than the maximum is its word indices, in
    the rightmost positions, after as many zeros as it takes to fill the
    row. *)
Theorem vectorize_stories_padding
    data word_idx story_maxlen query_maxlen X Xq Y :
  vectorize_stories data word_idx story_maxlen query_maxlen = Some (X, Xq, Y) →
  length X = length data ∧ length Xq = length data
  ∧ Forall (λ row, length row = story_maxlen) X
  ∧ Forall (λ row, length row = query_maxlen) Xq
  ∧ ∀ i story query answer,
      data !! i = Some (story, query, answer) →
      ∃ x xq,
        mapM (λ w, word_idx !! w) (item_words story) = Some x
        ∧ mapM (λ w, word_idx !! w) query = Some xq
        ∧ ((length (item_words story) ≤ story_maxlen)%nat →
           X !! i = Some (replicate
                            (story_maxlen - length (item_words story)) 0%nat
                          ++ x))
        ∧ ((length query ≤ query_maxlen)%nat →
           Xq !! i = Some (replicate (query_maxlen - length query) 0%nat
                           ++ xq)).
Proof.
  intros (rows & Hrows & -> & -> & ->)%vectorize_stories_rows.
  pose proof (length_mapM _ _ _ Hrows) as Hlen.
  rewrite !length_fmap. repeat split; [done..| | |].
  - apply Forall_fmap, Forall_fmap, Forall_true. intros r. cbn.
    apply length_pad_row.
  - apply Forall_fmap, Forall_fmap, Forall_true. intros r. cbn.
    apply length_pad_row.
  - intros i story query answer Hi. apply mapM_Some_1 in Hrows.
    destruct (Forall2_lookup_l _ _ _ _ _ Hrows Hi) as (r & Hr & Hone).
    apply vectorize_one_Some in Hone as (Hx & Hxq & _).
    exists r.1.1, r.1.2. repeat split; [done..| |].
    + intros Hshort. rewrite !list_lookup_fmap, Hr. cbn.
      rewrite (length_mapM _ _ _ Hx) in Hshort |- *.
      by rewrite pad_row_short.
    + intros Hshort. rewrite !list_lookup_fmap, Hr. cbn.
      rewrite (length_mapM _ _ _ Hxq) in Hshort |- *.
      by rewrite pad_row_short.
Qed.

Lemma vectorize_stories_padding_witness :
  vectorize_stories tiny_data tiny_word_idx 8 5 = Some (tiny_X, tiny_Xq, tiny_Y)
  ∧ Forall (λ row, length row = 8%nat) tiny_X
  ∧ Forall (λ row, length row = 5%nat) tiny_Xq
  ∧ tiny_X !! 0%nat = Some (replicate 2 0%nat ++ [3; 7; 9; 8; 5; 1]%nat).
Proof.
  assert (vectorize_stories tiny_data tiny_word_idx 8 5
          = Some (tiny_X, tiny_Xq, tiny_Y)) as H by (vm_compute; reflexivity).
  split; [exact H|].
  destruct (vectorize_stories_padding
              tiny_data tiny_word_idx 8 5 tiny_X tiny_Xq tiny_Y H)
    as (_ & _ & HX & HXq & Hrow).
  split; [exact HX|]. split; [exact HXq|]. reflexivity.
Defined.

Lemma sum_list_replicate_0 n : sum_list (replicate n 0%nat) = 0%nat.
Proof. induction n; [done|]. cbn. by rewrite IHn. Qed.

Lemma sum_list_one_hot n k :
  (k < n)%nat → sum_list (<[k := 1%nat]> (replicate n 0%nat)) = 1%nat.
Proof.
  revert k. induction n as [|n IH]; intros k Hk; [lia|].
  destruct k as [|k]; cbn.
  - by rewrite sum_list_replicate_0.
  - rewrite IH; [done|lia].
Qed.

Lemma one_hot_Some size k y :
  one_hot size k = Some y →
  length y = size ∧ (k < size)%nat ∧ y !! k = Some 1%nat
  ∧ (∀ j, j ≠ k → (j < size)%nat → y !! j = Some 0%nat)
  ∧ sum_list y = 1%nat.
Proof.
  unfold one_hot. case_decide as Hk; [|done]. intros [= <-].
  rewrite length_insert, length_replicate. repeat split; [done| | |].
  - apply list_lookup_insert_eq. by rewrite length_replicate.
  - intros j Hj Hlt. rewrite list_lookup_insert_ne by done.
    by apply lookup_replicate_2.
  - by apply sum_list_one_hot.
Qed.

(** C5: every answer vector that [vectorize_stories] returns has length
    [len(word_idx) + 1], holds 1 at the vocabulary index of its answer
    (which is in the vocabulary) and 0 everywhere else, and so sums to
    exactly 1. *)
Theorem vectorize_stories_one_hot
    data word_idx story_maxlen query_maxlen X Xq Y :
  vectorize_stories data word_idx story_maxlen query_maxlen = Some (X, Xq, Y) →
  length Y = length data
  ∧ ∀ i story query answer,
      data !! i = Some (story, query, answer) →
      ∃ k y,
        word_idx !! answer = Some k ∧ Y !! i = Some y
        ∧ length y = (size word_idx + 1)%nat
        ∧ (k < size word_idx + 1)%nat
        ∧ y !! k = Some 1%nat
        ∧ (∀ j, j ≠ k → (j < size word_idx + 1)%nat → y !! j = Some 0%nat)
        ∧ sum_list y = 1%nat.
Proof.
  intros (rows & Hrows & -> & -> & ->)%vectorize_stories_rows.
  pose proof (length_mapM _ _ _ Hrows) as Hlen.
  rewrite length_fmap. split; [done|].
  intros i story query answer Hi. apply mapM_Some_1 in Hrows.
  destruct (Forall2_lookup_l _ _ _ _ _ Hrows Hi) as (r & Hr & Hone).
  apply vectorize_one_Some in Hone as (_ & _ & k & Hk & Hy).
  apply one_hot_Some in Hy as (? & ? & ? & ? & ?).
  exists k, r.2. rewrite list_lookup_fmap, Hr. done.
Qed.

Lemma vectorize_stories_one_hot_witness :
  vectorize_stories tiny_data tiny_word_idx 8 5 = Some (tiny_X, tiny_Xq, tiny_Y)
  ∧ length tiny_Y = length tiny_data
  ∧ sum_list [0; 0; 0; 0; 0; 1; 0; 0; 0; 0]%nat = 1%nat.
Proof.
  assert (vectorize_stories tiny_data tiny_word_idx 8 5
          = Some (tiny_X, tiny_Xq, tiny_Y)) as H by (vm_compute; reflexivity).
  split; [exact H|].
  destruct (vectorize_stories_one_hot
              tiny_data tiny_word_idx 8 5 tiny_X tiny_Xq tiny_Y H)
    as (Hlen & _).
  split; [exact Hlen|reflexivity].
Defined.

(** The vectorizer returns when every word it looks up is in the
    vocabulary and the index of every answer is at most [len(word_idx)]. *)
Lemma vectorize_stories_returns data word_idx story_maxlen query_maxlen :
  Forall (λ t : flat_triple,
            Forall (λ w, is_Some (word_idx !! w)) (item_words t.1.1 ++ t.1.2)
            ∧ ∃ k, word_idx !! t.2 = Some k ∧ (k ≤ size word_idx)%nat) data →
  is_Some (vectorize_stories data word_idx story_maxlen query_maxlen).
Proof.
  intros Hall. unfold vectorize_stories. rewrite vectorize_loop_rows.
  assert (is_Some (mapM (vectorize_one word_idx) data)) as [rows ->]; [|by eexists].
  apply mapM_is_Some. eapply Forall_impl; [exact Hall|].
  intros [[story query] answer] ([Hs Hq]%Forall_app & k & Hk & Hle). cbn in *.
  unfold vectorize_one.
  apply (mapM_is_Some_2 (λ w, word_idx !! w)) in Hs as [x ->].
  apply (mapM_is_Some_2 (λ w, word_idx !! w)) in Hq as [xq ->].
  rewrite Hk. opt_simpl. unfold one_hot. case_decide; [by eexists|lia].
Qed.

(** ** Vocabulary *)

Lemma elem_of_foldl_union (s : gset string) (rest : list (gset string)) w :
  w ∈ foldl (∪) s rest ↔ w ∈ s ∨ ∃ s', s' ∈ rest ∧ w ∈ s'.
Proof.
  revert s. induction rest as [|x rest IH]; intros s; cbn.
  - split; [auto|]. intros [?|(s' & Hin & _)]; [done|].
    by apply not_elem_of_nil in Hin.
  - rewrite IH, elem_of_union. split.
    + intros [[?|?]|(s' & Hin & Hw)]; [by left| |].
      * right. exists x. split; [left|done].
      * right. exists s'. split; [by right|done].
    + intros [?|(s' & Hin & Hw)]; [auto|].
      apply elem_of_cons in Hin as [->|Hin]; [auto|]. right. eauto.
Qed.

Lemma triple_words_Some story q a s :
  triple_words (story, q, a) = Some s →
  ∀ w, w ∈ s ↔ w ∈ item_words story ++ q ++ [a].
Proof.
  destruct story as [ws|]; [|done]. cbn. intros [= <-] w.
  apply elem_of_list_to_set.
Qed.

Lemma elem_of_corpus_sets corpus sets w :
  Forall2 (λ t s, triple_words t = Some s) corpus sets →
  (∃ s', s' ∈ sets ∧ w ∈ s')
  ↔ ∃ story q a, (story, q, a) ∈ corpus ∧ w ∈ item_words story ++ q ++ [a].
Proof.
  induction 1 as [|[[story q] a] s corpus sets Hs _ IH].
  - split; [intros (? & Hin & _)|intros (? & ? & ? & Hin & _)];
      by apply not_elem_of_nil in Hin.
  - pose proof (triple_words_Some _ _ _ _ Hs w) as Hw. split.
    + intros (s' & [->|Hin]%elem_of_cons & Hs').
      * exists story, q, a. split; [left|by apply Hw].
      * destruct (proj1 IH) as (story' & q' & a' & Hin' & Hw'); [eauto|].
        exists story', q', a'. split; [by right|done].
    + intros (story' & q' & a' & [Heq|Hin]%elem_of_cons & Hw').
      * simplify_eq. exists s. split; [left|by apply Hw].
      * destruct (proj2 IH) as (s' & Hin' & Hs'); [eauto 6|].
        exists s'. split; [by right|done].
Qed.

Lemma build_vocab_Some train test vocab :
  build_vocab train test = Some vocab →
  ∃ s : gset string,
    vocab = sorted s
    ∧ ∀ w, w ∈ s
        ↔ ∃ story q a, (story, q, a) ∈ train ++ test
                       ∧ w ∈ item_words story ++ q ++ [a].
Proof.
  unfold build_vocab.
  destruct (mapM triple_words (train ++ test)) as [sets|] eqn:E; [|done].
  apply mapM_Some_1 in E. opt_simpl.
  destruct sets as [|s rest]; [done|]. cbn. intros [= <-].
  exists (foldl (∪) s rest). split; [done|]. intros w.
  rewrite elem_of_foldl_union, <- (elem_of_corpus_sets _ _ w E). split.
  - intros [?|(s' & ? & ?)]; [exists s|exists s']; (split; [|done]).
    + left.
    + by right.
  - intros (s' & [->|?]%elem_of_cons & ?); eauto.
Qed.

Lemma sorted_spec (s : gset string) :
  (∀ w, w ∈ sorted s ↔ w ∈ s) ∧ NoDup (sorted s)
  ∧ StronglySorted String.le (sorted s).
Proof.
  unfold sorted. split; [|split].
  - intros w. by rewrite merge_sort_Permutation, elem_of_elements.
  - rewrite merge_sort_Permutation. apply NoDup_elements.
  - apply StronglySorted_merge_sort; apply _.
Qed.

Lemma py_dict_snoc items kv :
  py_dict (items ++ [kv]) = <[kv.1 := kv.2]> (py_dict items).
Proof. unfold py_dict. by rewrite foldl_app. Qed.

Lemma build_word_idx_snoc vocab w :
  build_word_idx (vocab ++ [w])
  = <[w := (length vocab + 1)%nat]> (build_word_idx vocab).
Proof.
  unfold build_word_idx. rewrite imap_app. cbn [imap].
  rewrite py_dict_snoc. cbn. by rewrite Nat.add_0_r.
Qed.

(** The dictionary sends each word of a duplicate-free vocabulary to its
    position plus one. *)
Lemma build_word_idx_lookup vocab w i :
  NoDup vocab →
  build_word_idx vocab !! w = Some i
  ↔ ∃ j, vocab !! j = Some w ∧ i = (j + 1)%nat.
Proof.
  revert i. induction vocab as [|x vocab IH] using rev_ind; intros i Hnd.
  { split; [done|]. by intros (j & ? & _). }
  apply NoDup_app in Hnd as (Hnd & Hx & _).
  rewrite build_word_idx_snoc. destruct (decide (x = w)) as [->|Hne].
  - rewrite lookup_insert_eq. split.
    + intros [= <-]. exists (length vocab). split; [|done].
      by rewrite lookup_app_r, Nat.sub_diag by lia.
    + intros (j & Hj & ->). f_equal.
      destruct (decide (j < length vocab)%nat).
      * rewrite lookup_app_l in Hj by done.
        apply list_elem_of_lookup_2 in Hj. exfalso. eapply Hx; [done|left].
      * apply lookup_lt_Some in Hj. rewrite length_app in Hj. cbn in Hj. lia.
  - rewrite lookup_insert_ne by done. rewrite IH by done. split.
    + intros (j & Hj & ->). exists j. split; [|done].
      by apply lookup_app_l_Some.
    + intros (j & Hj & ->). exists j. split; [|done].
      apply lookup_app_Some in Hj as [?|[_ Hj]]; [done|].
      apply list_lookup_singleton_Some in Hj as [_ ?]. done.
Qed.

Lemma build_word_idx_size vocab :
  NoDup vocab → size (build_word_idx vocab) = length vocab.
Proof.
  induction vocab as [|x vocab IH] using rev_ind; intros Hnd; [done|].
  pose proof Hnd as (Hnd' & Hx & _)%NoDup_app.
  rewrite build_word_idx_snoc, length_app. cbn.
  rewrite map_size_insert_None, IH by first [done|
    destruct (build_word_idx vocab !! x) as [i|] eqn:E; [|done];
    apply build_word_idx_lookup in E as (j & Hj%list_elem_of_lookup_2 & _);
      [|done]; exfalso; eapply Hx; [done|left] ].
  lia.
Qed.

(** C6: the vocabulary is the set of the distinct tokens of the stories,
    queries and answers of the train and test triples together, in sorted
    order, and [word_idx] maps its words one-to-one onto the indices
    1 .. [len(vocab)], the word at (0-based) position [j] to [j + 1]; no
    word gets index 0. *)
Theorem vocabulary_and_word_idx train test vocab :
  build_vocab train test = Some vocab →
  (∀ w, w ∈ vocab
        ↔ ∃ story q a, (story, q, a) ∈ train ++ test
                       ∧ w ∈ item_words story ++ q ++ [a])
  ∧ NoDup vocab
  ∧ StronglySorted String.le vocab
  ∧ (∀ w i, build_word_idx vocab !! w = Some i
            ↔ ∃ j, vocab !! j = Some w ∧ i = (j + 1)%nat)
  ∧ (∀ i, (1 ≤ i ≤ length vocab)%nat
          ↔ ∃ w, build_word_idx vocab !! w = Some i)
  ∧ (∀ w1 w2 i, build_word_idx vocab !! w1 = Some i →
                build_word_idx vocab !! w2 = Some i → w1 = w2)
  ∧ (∀ w, w ∈ vocab ↔ is_Some (build_word_idx vocab !! w))
  ∧ (∀ w, build_word_idx vocab !! w ≠ Some 0%nat)
  ∧ size (build_word_idx vocab) = length vocab.
Proof.
  intros (s & -> & Hs)%build_vocab_Some.
  destruct (sorted_spec s) as (Hin & Hnd & Hsorted).
  pose proof (λ w i, build_word_idx_lookup (sorted s) w i Hnd) as Hidx.
  split; [intros w; by rewrite Hin|].
  split; [done|]. split; [done|]. split; [done|].
  split.
  { intros i. split.
    - intros [Hlo Hhi].
      destruct (lookup_lt_is_Some_2 (sorted s) (i - 1)) as [w Hw]; [lia|].
      exists w. apply Hidx. exists (i - 1)%nat. split; [done|lia].
    - intros (w & (j & Hj%lookup_lt_Some & ->)%Hidx). lia. }
  split.
  { intros w1 w2 i (j1 & Hj1 & ->)%Hidx (j2 & Hj2 & Heq)%Hidx.
    assert (j1 = j2) as -> by lia. congruence. }
  split.
  { intros w. split.
    - intros (j & Hj)%list_elem_of_lookup_1. exists (j + 1)%nat.
      apply Hidx. eauto.
    - intros (i & (j & Hj & _)%Hidx). by eapply list_elem_of_lookup_2. }
  split.
  { intros w (j & _ & ?)%Hidx. lia. }
  by apply build_word_idx_size.
Qed.

Lemma vocabulary_and_word_idx_witness :
  build_vocab tiny_data [] = Some tiny_vocab
  ∧ NoDup tiny_vocab
  ∧ size (build_word_idx tiny_vocab) = length tiny_vocab.
Proof.
  assert (build_vocab tiny_data [] = Some tiny_vocab) as H
    by (vm_compute; reflexivity).
  split; [exact H|].
  destruct (vocabulary_and_word_idx tiny_data [] tiny_vocab H)
    as (_ & Hnd & _ & _ & _ & _ & _ & _ & Hsize).
  split; [exact Hnd|exact Hsize].
Defined.

(** The vocabulary is built as soon as there is a triple and every story
    is a list of tokens. *)
Lemma build_vocab_returns train test :
  train ++ test ≠ [] →
  Forall (λ t : flat_triple, ∃ ws, t.1.1 = Toks ws) (train ++ test) →
  is_Some (build_vocab train test).
Proof.
  intros Hne Hall. unfold build_vocab.
  assert (is_Some (mapM triple_words (train ++ test))) as [sets Hsets].
  { apply mapM_is_Some. eapply Forall_impl; [exact Hall|].
    intros [[story q] a] [ws Hws]. cbn in *. subst. by eexists. }
  rewrite Hsets. opt_simpl. apply length_mapM in Hsets.
  destruct sets as [|s rest]; [|by eexists].
  destruct (train ++ test); [done|]. cbn in Hsets. lia.
Qed.

(** The vocabulary of the notebook: the two corpora come from
    [get_stories] with its default arguments. *)
Lemma startup_vocabulary train_lines test_lines train test :
  get_stories train_lines false None = Some train →
  get_stories test_lines false None = Some test →
  train ++ test ≠ [] →
  is_Some (build_vocab train test).
Proof.
  intros Htrain%get_stories_default_tokens Htest%get_stories_default_tokens Hne.
  apply build_vocab_returns; [done|]. apply Forall_app. split.
  - eapply Forall_impl; [exact Htrain|]. intros t (ws & ? & _). eauto.
  - eapply Forall_impl; [exact Htest|]. intros t (ws & ? & _). eauto.
Qed.

(** ** The download cell *)

Lemma download_cell_success get_file out out' path :
  get_file dataset_fname dataset_origin out = (out', Ok path) →
  download_cell get_file out = (out', Ok path).
Proof. intros H. unfold download_cell, try_except. by rewrite H. Qed.

(** C7: when the download raises, the cell prints the manual-recovery
    instruction (one message, with the [wget] and the [mv] command) after
    whatever [get_file] printed, and raises the same exception again;
    nothing else is run. *)
Theorem download_failure_reraised get_file out out' e :
  get_file dataset_fname dataset_origin out = (out', Raise e) →
  download_cell get_file out = (out' ++ [manual_download_message], Raise e)
  ∧ mentions "$ wget " manual_download_message = true
  ∧ mentions "$ mv " manual_download_message = true.
Proof.
  intros H. split; [|by vm_compute].
  unfold download_cell, try_except. by rewrite H.
Qed.

Lemma download_failure_reraised_witness :
  get_file_offline dataset_fname dataset_origin []
  = (["Downloading data from " +:+ dataset_origin],
     Raise (LibraryError "URLError"))
  ∧ download_cell get_file_offline []
    = (["Downloading data from " +:+ dataset_origin] ++ [manual_download_message],
       Raise (LibraryError "URLError")).
Proof.
  split; [reflexivity|].
  apply (download_failure_reraised get_file_offline []
           ["Downloading data from " +:+ dataset_origin]
           (LibraryError "URLError")).
  reflexivity.
Defined.

(** ** Interactive inference *)

Lemma io_bind_run {A B} (m : io A) (f : A → io B) out :
  (m ≫= f) out
  = match m out with
    | (out', Ok a) => f a out'
    | (out', Raise e) => (out', Raise e)
    end.
Proof. reflexivity. Qed.

Lemma io_ret_run {A} (a : A) out : @mret io io_ret A a out = (out, Ok a).
Proof. reflexivity. Qed.

Lemma lookup_word_run word_idx w out :
  lookup_word word_idx w out
  = match word_idx !! w with
    | Some i => (out, Ok i)
    | None => (out, Raise (KeyError w))
    end.
Proof. unfold lookup_word. by destruct (word_idx !! w). Qed.

Lemma io_mapM_lookup_word word_idx l out :
  match mapM (λ w, word_idx !! w) l with
  | Some xs => io_mapM (lookup_word word_idx) l out = (out, Ok xs)
  | None => ∃ w, w ∈ l ∧ word_idx !! w = None
                 ∧ io_mapM (lookup_word word_idx) l out
                   = (out, Raise (KeyError w))
  end.
Proof.
  induction l as [|w l IH]; [done|]. cbn [mapM io_mapM].
  rewrite io_bind_run, lookup_word_run.
  destruct (word_idx !! w) as [i|] eqn:Hw; opt_simpl.
  - rewrite io_bind_run.
    destruct (mapM (λ w, word_idx !! w) l) as [xs|]; opt_simpl.
    + by rewrite IH.
    + destruct IH as (w' & Hin & Hw' & IH). exists w'.
      split; [by right|]. split; [done|]. by rewrite IH.
  - exists w. split; [left|]. done.
Qed.

(** C8: a story or a query with a token that is not in [word_idx] makes
    [ask_qa] raise the [KeyError] of such a token, right after the line of
    dashes: no answer is printed, and nothing handles the error. *)
Theorem ask_qa_unknown_word
    word_idx story_maxlen query_maxlen predict_argmax idx_word
    story query out :
  (∃ w, w ∈ tokenize PyStr story ++ tokenize PyStr query
        ∧ word_idx !! w = None) →
  ∃ w, w ∈ tokenize PyStr story ++ tokenize PyStr query
       ∧ word_idx !! w = None
       ∧ ask_qa word_idx story_maxlen query_maxlen predict_argmax idx_word
           story query out
         = (out ++ ["---------------"], Raise (KeyError w)).
Proof.
  intros (w0 & Hin0 & Hw0). unfold ask_qa.
  rewrite io_bind_run. unfold print at 1. cbv iota. rewrite io_bind_run.
  pose proof (io_mapM_lookup_word word_idx (tokenize PyStr story)
                (out ++ ["---------------"])) as Hs.
  destruct (mapM (λ w, word_idx !! w) (tokenize PyStr story)) as [xs|] eqn:Es.
  - rewrite Hs. cbv iota. rewrite io_bind_run.
    pose proof (io_mapM_lookup_word word_idx (tokenize PyStr query)
                  (out ++ ["---------------"])) as Hq.
    destruct (mapM (λ w, word_idx !! w) (tokenize PyStr query)) as [xq|] eqn:Eq.
    + exfalso. apply mapM_Some_1 in Es, Eq.
      apply elem_of_app in Hin0 as [Hin0|Hin0];
        apply list_elem_of_lookup_1 in Hin0 as [j Hj].
      * destruct (Forall2_lookup_l _ _ _ _ _ Es Hj) as (? & _ & ?). congruence.
      * destruct (Forall2_lookup_l _ _ _ _ _ Eq Hj) as (? & _ & ?). congruence.
    + destruct Hq as (w & Hin & Hw & ->). exists w.
      split; [apply elem_of_app; by right|]. done.
  - destruct Hs as (w & Hin & Hw & ->). exists w.
    split; [apply elem_of_app; by left|]. done.
Qed.

Lemma ask_qa_unknown_word_witness :
  ∃ w, w ∈ tokenize PyStr "John went to the bathroom."
           ++ tokenize PyStr "Where is John?"
       ∧ tiny_word_idx !! w = None
       ∧ ask_qa tiny_word_idx 8 5 predict_zero ∅
           "John went to the bathroom." "Where is John?" []
         = ([] ++ ["---------------"], Raise (KeyError w)).
Proof.
  apply (ask_qa_unknown_word tiny_word_idx 8 5 predict_zero ∅
           "John went to the bathroom." "Where is John?" []).
  exists "John". split; [vm_compute; left|vm_compute; reflexivity].
Defined.

Example ask_qa_john :
  ask_qa tiny_word_idx 8 5 predict_zero ∅
    "John went to the bathroom." "Where is John?" []
  = (["---------------"], Raise (KeyError "John")).
Proof. vm_compute. reflexivity. Qed.

(** With every word known, the answer of the network is printed. *)
Example ask_qa_mary :
  ask_qa tiny_word_idx 8 5 predict_zero {[ 0%nat := "bathroom" ]}
    "Mary moved to the bathroom." "Where is Mary?" []
  = (["---------------";
      "S:Mary moved to the bathroom." +:+ NL +:+ "Q:Where is Mary?" +:+ NL
      +:+ "A:bathroom"], Ok tt).
Proof. vm_compute. reflexivity. Qed.

(** * Further properties *)

(** ** The tokenizer *)

Lemma scan_all_chars P s :
  (∀ seg, all_chars P (seg +:+ s) = true →
     Forall (λ p, all_chars P p = true) (scan_word seg s)) ∧
  (∀ run, all_chars P (run +:+ s) = true →
     Forall (λ p, all_chars P p = true) (scan_sep run s)).
Proof.
  induction s as [|c s [IHw IHs]];
    (split; [intros seg|intros run]); cbn; rewrite ?app_empty_r.
  - intros H. by apply Forall_singleton.
  - intros H. apply Forall_cons. split; [done|]. by apply Forall_singleton.
  - intros H. destruct (is_word c).
    + apply IHw. by rewrite app_assoc_str.
    + rewrite all_chars_app in H. apply andb_prop in H as [Hseg Hs].
      apply Forall_cons. split; [done|]. by apply IHs.
  - intros H. destruct (is_word c).
    + rewrite all_chars_app in H. apply andb_prop in H as [Hrun Hs].
      apply Forall_cons. split; [done|]. by apply IHw.
    + apply IHs. by rewrite app_assoc_str.
Qed.

Lemma filter_none {A} (P : A → Prop) `{∀ x, Decision (P x)} (l : list A) :
  Forall (λ x, ¬ P x) l → filter P l = [].
Proof.
  induction 1 as [|x l Hx _ IH]; [done|]. by rewrite filter_cons_False.
Qed.

(** A sentence has no token exactly when it is empty or white space
    only. *)
Theorem tokenize_nil_iff k sent :
  tokenize k sent = [] ↔ all_chars (isspace k) sent = true.
Proof.
  split.
  - intros H. destruct (all_chars (isspace k) sent) eqn:E; [done|].
    by apply tokenize_nonempty in E.
  - intros H. unfold tokenize. rewrite filter_none; [done|].
    eapply Forall_impl;
      [apply (proj1 (scan_all_chars (isspace k) sent) ""), H|].
    cbn. intros p Hp Hne. by apply Hne, strip_empty.
Qed.

Lemma remove_space_app k a b :
  remove_space k (a +:+ b) = remove_space k a +:+ remove_space k b.
Proof.
  induction a as [|c a IH]; [done|]. rewrite app_cons_str. cbn.
  destruct (isspace k c); [done|]. by rewrite app_cons_str, IH.
Qed.

Lemma remove_space_all_space k s :
  all_chars (isspace k) s = true → remove_space k s = "".
Proof.
  induction s as [|c s IH]; [done|]. cbn. intros [Hc Hs]%andb_prop.
  rewrite Hc. auto.
Qed.

Lemma remove_space_lstrip k s : remove_space k (lstrip k s) = remove_space k s.
Proof.
  induction s as [|c s IH]; [done|]. cbn.
  destruct (isspace k c) eqn:Hc; [done|]. cbn. by rewrite Hc.
Qed.

Lemma remove_space_rstrip k s : remove_space k (rstrip k s) = remove_space k s.
Proof.
  induction s as [|c s IH]; [done|]. cbn.
  destruct (rstrip k s) as [|c' r] eqn:Hr.
  - apply rstrip_empty, (remove_space_all_space k) in Hr. rewrite Hr.
    destruct (isspace k c) eqn:Hc; [done|]. cbn. by rewrite Hc.
  - cbn [remove_space] in *. by rewrite IH.
Qed.

Lemma remove_space_strip k s : remove_space k (strip k s) = remove_space k s.
Proof. unfold strip. by rewrite remove_space_rstrip, remove_space_lstrip. Qed.

Lemma remove_space_tokens k pieces :
  remove_space k (concat_str (strip k <$> filter (λ x, strip k x ≠ "") pieces))
  = remove_space k (concat_str pieces).
Proof.
  induction pieces as [|p pieces IH]; [done|].
  unfold concat_str in *. cbn [foldr]. rewrite remove_space_app, <- IH.
  destruct (decide (strip k p = "")) as [Hp|Hp].
  - rewrite filter_cons_False by (intros ?; done).
    apply strip_empty, (remove_space_all_space k) in Hp. by rewrite Hp.
  - rewrite filter_cons_True by done. cbn [fmap list_fmap foldr].
    by rewrite remove_space_app, remove_space_strip.
Qed.

(** The tokenizer loses nothing but white space: the tokens put together,
    white space removed, are the sentence with its white space removed. *)
Theorem tokenize_keeps_characters k sent :
  remove_space k (concat_str (tokenize k sent)) = remove_space k sent.
Proof.
  unfold tokenize. rewrite remove_space_tokens. unfold concat_str.
  by rewrite re_split_concat.
Qed.

Lemma rstrip_fixed k t :
  (∀ a b, t = a +:+ b → all_chars (isspace k) b = true → b = "") →
  rstrip k t = t.
Proof.
  induction t as [|c t IH]; [done|]. intros Hq. cbn.
  rewrite IH.
  - destruct t as [|c' t']; [|done].
    destruct (isspace k c) eqn:Hc; [|done].
    specialize (Hq "" (String c "") eq_refl). cbn in Hq. rewrite Hc in Hq.
    by specialize (Hq eq_refl).
  - intros a b -> Hb. by apply (Hq (String c a) b).
Qed.

Lemma rstrip_idemp k s : rstrip k (rstrip k s) = rstrip k s.
Proof. apply rstrip_fixed. intros a b. apply rstrip_no_space_suffix. Qed.

Lemma strip_idemp k s : strip k (strip k s) = strip k s.
Proof.
  unfold strip at 1.
  assert (lstrip k (strip k s) = strip k s) as ->; [|apply rstrip_idemp].
  unfold strip. destruct (lstrip k s) as [|c z] eqn:Hz; [done|].
  apply lstrip_head in Hz.
  destruct (rstrip_head k c z Hz) as [r ->]. cbn. by rewrite Hz.
Qed.

(** Every token neither starts nor ends with white space: its first and
    its last character are not white space (so stripping it again changes
    nothing). *)
Theorem tokenize_stripped k sent w :
  w ∈ tokenize k sent →
  starts_nonspace k w = true ∧ ends_nonspace k w = true ∧ strip k w = w.
Proof.
  unfold tokenize.
  intros (p & -> & [Hne _]%list_elem_of_filter)%list_elem_of_fmap.
  destruct (strip_clean k p Hne) as [Hs He].
  split; [done|]. split; [done|]. apply strip_idemp.
Qed.

Lemma tokenize_stripped_witness :
  "?" ∈ tokenize PyStr "Where is the apple ?  "
  ∧ starts_nonspace PyStr "?" = true ∧ ends_nonspace PyStr "?" = true
  ∧ strip PyStr "?" = "?".
Proof.
  assert ("?" ∈ tokenize PyStr "Where is the apple ?  ") as H
    by (vm_compute; do 4 right; left).
  split; [exact H|]. exact (tokenize_stripped PyStr _ _ H).
Defined.

(** Tokenizing goes run by run: a leading word is one token, the run of
    non-word characters after it is one token unless it is white space
    only (and then it only separates), and the rest is tokenized on its
    own. *)
Theorem tokenize_run k w c p rest :
  all_chars is_word w = true →
  all_chars non_word (String c p) = true →
  match rest with "" => True | String d _ => is_word d = true end →
  tokenize k (w +:+ String c p +:+ rest)
  = (if decide (w = "") then [] else [w])
    ++ (if all_chars (isspace k) (String c p) then []
        else [strip k (String c p)])
    ++ tokenize k rest.
Proof. apply tokenize_run_eq. Qed.

Lemma tokenize_run_witness :
  all_chars is_word "apple" = true
  ∧ all_chars non_word ". " = true
  ∧ tokenize PyStr ("apple" +:+ ". " +:+ "Where is")
    = (if decide ("apple" = "") then [] else ["apple"])
      ++ (if all_chars (isspace PyStr) ". " then [] else [strip PyStr ". "])
      ++ tokenize PyStr "Where is".
Proof.
  split; [reflexivity|]. split; [reflexivity|].
  apply (tokenize_run PyStr "apple" "." " " "Where is"); reflexivity.
Defined.

(** ** The parser *)



Lemma record_loop_questions os recs : ∀ data story data' story',
  record_loop os (data, story) recs = Some (data', story') →
  (λ t : triple, (t.1.2, t.2)) <$> data'
  = ((λ t : triple, (t.1.2, t.2)) <$> data) ++ questions_of recs.
Proof.
  induction recs as [|r recs IH]; intros data story data' story';
    cbn [record_loop].
  - intros [= <- <-]. by rewrite app_nil_r.
  - intros H. apply bind_Some in H as ([d1 s1] & H1 & H2).
    rewrite (IH _ _ _ _ H2). unfold questions_of. cbn [flat_map].
    destruct r as [n text|n q a sup]; cbn in H1.
    + by injection H1 as <- <-.
    + apply bind_Some in H1 as (sub & _ & [= <- <-]).
      by rewrite fmap_app, <- app_assoc.
Qed.

(** In both modes, [parse_stories] returns one triple per question line,
    in the order of the lines, with the tokenized question and the answer
    field as it stands in the line (not stripped, not tokenized). *)
Theorem parse_stories_questions lines only_supporting data :
  parse_stories lines only_supporting = Some data →
  ∃ recs, mapM parse_line lines = Some recs
          ∧ (λ t : triple, (t.1.2, t.2)) <$> data = questions_of recs.
Proof.
  unfold parse_stories. intros H.
  apply bind_Some in H as ([data' story] & H & [= ->]).
  destruct (parse_loop_is_Some only_supporting ([], []) lines) as [recs Hrecs];
    [by eexists|].
  exists recs. split; [done|].
  rewrite (parse_loop_records _ _ _ _ Hrecs) in H.
  by rewrite (record_loop_questions _ _ _ _ _ _ H).
Qed.

Lemma parse_stories_questions_witness :
  parse_stories sample true = Some (stories_by_supporting sample_records)
  ∧ ∃ recs, mapM parse_line sample = Some recs
            ∧ (λ t : triple, (t.1.2, t.2))
                <$> stories_by_supporting sample_records
              = questions_of recs.
Proof.
  assert (parse_stories sample true
          = Some (stories_by_supporting sample_records)) as H by reflexivity.
  split; [exact H|]. exact (parse_stories_questions sample true _ H).
Defined.

Lemma filter_truthy_all episode :
  Forall record_ok episode →
  filter (λ x, truthy x = true) (item_of <$> episode)
  = sentences_where (λ _, true) episode.
Proof.
  induction 1 as [|r l Hok _ IH]; [done|].
  rewrite sentences_where_cons, fmap_cons, <- IH.
  destruct r as [m text|m q a sup]; cbn in Hok.
  - apply (tokenize_nonempty PyUnicode) in Hok.
    rewrite filter_cons_True; [done|].
    cbn. by destruct (tokenize PyUnicode text).
  - by rewrite filter_cons_False.
Qed.

Lemma record_loop_by_position rest : ∀ before data,
  Forall record_ok (current_episode before) →
  Forall record_ok rest →
  record_loop false (data, item_of <$> current_episode before) rest
  = Some (data ++ triples_of
                    (λ episode _ _, sentences_where (λ _, true) episode)
                    before rest,
          item_of <$> current_episode (before ++ rest)).
Proof.
  induction rest as [|r rest IH]; intros before data Hok Hrest.
  { cbn. by rewrite !app_nil_r. }
  apply Forall_cons in Hrest as [Hokr Hrest].
  set (ep0 := episode_before r (current_episode before)).
  assert (Forall record_ok ep0) as Hok0.
  { unfold ep0, episode_before. by destruct (_ =? 1). }
  pose proof (current_episode_snoc before r) as Hep. fold ep0 in Hep.
  assert (∀ data',
            record_loop false
              (data', item_of <$> current_episode (before ++ [r])) rest
            = Some (data' ++ triples_of
                               (λ episode _ _,
                                  sentences_where (λ _, true) episode)
                               (before ++ [r]) rest,
                    item_of <$> current_episode ((before ++ [r]) ++ rest)))
    as IH1.
  { intros data'. apply IH; [|done]. rewrite Hep. apply Forall_app.
    split; [done|by apply Forall_singleton]. }
  rewrite <- (app_assoc before [r] rest) in IH1. cbn [app] in IH1.
  clear IH. cbn [record_loop triples_of]. destruct r as [n text|n q a sup].
  - rewrite record_step_narrative. opt_simpl. fold ep0.
    rewrite <- Hep. by rewrite IH1.
  - rewrite record_step_question. fold ep0. opt_simpl.
    rewrite filter_truthy_all by done. rewrite <- Hep at 1.
    rewrite IH1, Hep, sentences_where_app. cbn [sentences_where flat_map].
    by rewrite !app_nil_r, <- app_assoc.
Qed.

(** On every input that can be read, whatever its line numbers: with all
    the sentences kept, the story of a question is the tokenized narrative
    sentences read since the last line numbered 1 (since the first line
    when there is none), in the order of the lines. *)
Theorem parse_stories_by_position lines recs :
  mapM parse_line lines = Some recs →
  parse_stories lines false = Some (stories_by_position recs).
Proof.
  intros Hrecs. unfold parse_stories.
  rewrite (parse_loop_records _ _ _ _ Hrecs).
  pose proof (record_loop_by_position recs [] []) as H.
  cbn in H. rewrite H; [done|by constructor|].
  by eapply mapM_parse_line_ok.
Qed.

Lemma parse_stories_by_position_witness :
  mapM parse_line out_of_order
  = Some [ Narrative 1 "Mary moved to the bathroom.";
           Narrative 5 "John went to the hallway.";
           Question 3 "Where is Mary? " "bathroom" "1" ]
  ∧ parse_stories out_of_order false
    = Some (stories_by_position
              [ Narrative 1 "Mary moved to the bathroom.";
                Narrative 5 "John went to the hallway.";
                Question 3 "Where is Mary? " "bathroom" "1" ]).
Proof.
  split; [reflexivity|].
  apply (parse_stories_by_position out_of_order). reflexivity.
Defined.

Lemma record_step_buffer_length os data story r data' story' :
  record_step os (data, story) r = Some (data', story') →
  (length story' ≤ length story + 1)%nat.
Proof.
  assert (length (if (nid_of r =? 1)%Z then [] else story) ≤ length story)%nat
    as Hle by (destruct (_ =? 1)%Z; cbn; lia).
  destruct r as [n text|n q a sup]; cbn in *.
  - intros [= _ <-]. rewrite length_app. cbn. lia.
  - intros H. apply bind_Some in H as (sub & _ & [= _ <-]).
    rewrite length_app. cbn. lia.
Qed.

Lemma parse_loop_buffer_length os lines : ∀ data story data' story',
  parse_loop os (data, story) lines = Some (data', story') →
  (length story' ≤ length story + length lines)%nat.
Proof.
  induction lines as [|line lines IH]; intros data story data' story';
    cbn [parse_loop].
  - intros [= _ <-]. lia.
  - rewrite parse_step_record. intros H.
    apply bind_Some in H as ([d1 s1] & H1 & H2).
    apply bind_Some in H1 as (r & _ & H1).
    apply record_step_buffer_length in H1. apply IH in H2. cbn. lia.
Qed.

Lemma py_index_out_of_range {A} (l : list A) (i : Z) :
  Z.of_nat (length l) ≤ i ∨ i < - Z.of_nat (length l) → py_index l i = None.
Proof.
  intros H. unfold py_index.
  destruct (Z.leb_spec 0 i), (Z.ltb_spec i (Z.of_nat (length l)));
    cbn; try lia;
    destruct (Z.leb_spec (- Z.of_nat (length l)) i), (Z.ltb_spec i 0);
    cbn; try lia; done.
Qed.

(** With the supporting facts only: when the lines before a question
    have been processed without error, the question line is read and its
    supporting field is a list of integers, a supporting index that points
    at the position of the question itself or beyond it, counted from the
    start of the input (or as far below zero), is out of the range of the
    buffer, so the indexing [story[i - 1]] is what fails (an
    [IndexError]), and [parse_stories] with it: the buffer never holds
    more entries than lines were read. *)
Theorem parse_stories_supporting_out_of_range
    before line after data story n q a supporting indices i :
  parse_loop true ([], []) before = Some (data, story) →
  parse_line line = Some (Question n q a supporting) →
  supporting_indices supporting = Some indices →
  i ∈ indices →
  Z.of_nat (length before) < i ∨ i ≤ - Z.of_nat (length before) →
  py_index (if n =? 1 then [] else story) (i - 1) = None
  ∧ mapM (λ i, py_index (if n =? 1 then [] else story) (i - 1)) indices = None
  ∧ parse_stories (before ++ line :: after) true = None.
Proof.
  intros Hbefore Hline Hsup Hi Hrange.
  pose proof (parse_loop_buffer_length _ _ _ _ _ _ Hbefore) as Hlen0.
  cbn in Hlen0.
  set (buffer := if n =? 1 then [] else story).
  assert (length buffer ≤ length before)%nat as Hlen.
  { unfold buffer. destruct (n =? 1); cbn; lia. }
  assert (py_index buffer (i - 1) = None) as Hidx.
  { apply py_index_out_of_range. lia. }
  assert (mapM (λ i, py_index buffer (i - 1)) indices = None) as Hmap.
  { apply mapM_None, Exists_exists. by exists i. }
  split; [done|]. split; [done|].
  unfold parse_stories. rewrite parse_loop_app, Hbefore.
  cbn [mbind option_bind parse_loop]. rewrite parse_step_record, Hline.
  cbn [mbind option_bind record_step nid_of]. rewrite Hsup.
  cbn [mbind option_bind]. fold buffer. by rewrite Hmap.
Qed.

Lemma parse_stories_supporting_out_of_range_witness :
  parse_loop true ([], []) ["1 Mary moved to the bathroom."]
  = Some ([], [Toks ["Mary"; "moved"; "to"; "the"; "bathroom"; "."]])
  ∧ parse_line (qline "2 Where is Mary? " "bathroom" "2")
    = Some (Question 2 "Where is Mary? " "bathroom" "2")
  ∧ supporting_indices "2" = Some [2]
  ∧ py_index (if 2 =? 1 then []
              else [Toks ["Mary"; "moved"; "to"; "the"; "bathroom"; "."]])
      (2 - 1) = None
  ∧ parse_stories (["1 Mary moved to the bathroom."]
                   ++ qline "2 Where is Mary? " "bathroom" "2" :: []) true
    = None.
Proof.
  split; [reflexivity|]. split; [reflexivity|]. split; [reflexivity|].
  destruct (parse_stories_supporting_out_of_range
              ["1 Mary moved to the bathroom."]
              (qline "2 Where is Mary? " "bathroom" "2") []
              [] [Toks ["Mary"; "moved"; "to"; "the"; "bathroom"; "."]]
              2 "Where is Mary? " "bathroom" "2" [2] 2)
    as (Hidx & _ & Hparse); [reflexivity|reflexivity|reflexivity|left| |].
  - cbn. lia.
  - split; [exact Hidx|exact Hparse].
Defined.

(** ** get_stories *)

Lemma keep_flattened_no_limit max_length data :
  max_length = None ∨ max_length = Some 0 →
  keep_flattened max_length data = mapM flatten_triple data.
Proof.
  intros Hm. induction data as [|[[story q] a] data IH]; [done|].
  cbn [keep_flattened mapM flatten_triple].
  assert (keeps max_length story = Some true) as ->
    by (by destruct Hm as [-> | ->]).
  opt_simpl. destruct (flatten story) as [s|]; opt_simpl; [|done].
  rewrite IH. by destruct (mapM flatten_triple data).
Qed.

(** A [max_length] of 0 means no limit, as [None] does: every parsed
    triple is kept, and the call fails only if the parse fails or a story
    cannot be flattened. *)
Theorem get_stories_no_limit lines only_supporting :
  get_stories lines only_supporting (Some 0)
  = get_stories lines only_supporting None
  ∧ get_stories lines only_supporting None
    = data ← parse_stories lines only_supporting; mapM flatten_triple data.
Proof.
  unfold get_stories.
  destruct (parse_stories lines only_supporting) as [data|]; [|done].
  opt_simpl. rewrite !keep_flattened_no_limit by auto. done.
Qed.

Lemma reduce_add_toks_None l : ∀ ws,
  reduce_add (Toks ws) l = None ↔ Blank ∈ l.
Proof.
  induction l as [|y l IH]; intros ws; cbn.
  - split; [done|]. by intros ?%not_elem_of_nil.
  - destruct y as [b|]; cbn.
    + rewrite IH, elem_of_cons. split; [auto|]. by intros [|].
    + split; [intros _; left|done].
Qed.

Lemma reduce_add_blank_None l :
  reduce_add Blank l = None ↔ ∃ ws, Toks ws ∈ l.
Proof.
  induction l as [|y l IH]; cbn.
  - split; [done|]. by intros [? ?%not_elem_of_nil].
  - destruct y as [b|]; cbn.
    + split; [intros _; exists b; left|done].
    + rewrite IH. split; intros [ws H]; exists ws.
      * by right.
      * by apply elem_of_cons in H as [|].
Qed.

(** Flattening fails in two cases only: on no sentence at all, and on a
    substory that holds both a token list and the [''] that stands for a
    question line (a list and a string cannot be added). *)
Theorem flatten_fails_iff story :
  flatten story = None
  ↔ story = [] ∨ ((∃ ws, Toks ws ∈ story) ∧ Blank ∈ story).
Proof.
  destruct story as [|x rest]; cbn.
  { split; [by left|done]. }
  destruct x as [ws|].
  - rewrite reduce_add_toks_None. split.
    + intros H. right. split; [exists ws; left|by right].
    + intros [|[_ H]]; [done|]. by apply elem_of_cons in H as [|].
  - rewrite reduce_add_blank_None. split.
    + intros [ws H]. right. split; [exists ws; by right|left].
    + intros [|[[ws H] _]]; [done|]. exists ws.
      by apply elem_of_cons in H as [|].
Qed.

Lemma reduce_add_truthy l : ∀ ws s,
  Forall (λ x, truthy x = true) l →
  reduce_add (Toks ws) l = Some s →
  s = Toks (ws ++ concat (item_words <$> l)).
Proof.
  induction l as [|y l IH]; intros ws s Hl; cbn.
  - intros [= <-]. by rewrite app_nil_r.
  - apply Forall_cons in Hl as [Hy Hl]. destruct y as [b|]; [|done]. cbn.
    intros H. rewrite (IH _ _ Hl H). by rewrite <- app_assoc.
Qed.

Lemma flatten_truthy story s :
  Forall (λ x, truthy x = true) story → flatten story = Some s →
  s = Toks (concat (item_words <$> story))
  ∧ concat (item_words <$> story) ≠ [].
Proof.
  destruct story as [|x story]; [done|]. intros [Hx Hs]%Forall_cons. cbn.
  destruct x as [[|w ws]|]; try done. intros H.
  by rewrite (reduce_add_truthy _ _ _ Hs H).
Qed.

(** With all the sentences kept, every triple that [get_stories] returns
    comes from a parsed triple with the same question and answer, and its
    story is the tokens of the sentences of that triple's story, one
    sentence after the other: a list of at least one token, never a
    string. *)
Theorem get_stories_default_story lines max_length data :
  get_stories lines false max_length = Some data →
  ∃ parsed,
    parse_stories lines false = Some parsed
    ∧ Forall (λ t : flat_triple,
                ∃ story, (story, t.1.2, t.2) ∈ parsed
                         ∧ t.1.1 = Toks (concat (item_words <$> story))
                         ∧ concat (item_words <$> story) ≠ []) data.
Proof.
  unfold get_stories. intros H. apply bind_Some in H as (parsed & H0 & H).
  exists parsed. split; [done|].
  unfold parse_stories in H0.
  apply bind_Some in H0 as ([d0 s0] & H0 & [= <-]).
  apply parse_loop_truthy in H0; [|done].
  apply keep_flattened_stories in H.
  eapply Forall_impl; [exact H|]. cbn. intros t (story & Hflat & Hin).
  exists story. split; [done|]. apply flatten_truthy; [|done].
  rewrite Forall_forall in H0. by apply (H0 _ Hin).
Qed.

Lemma get_stories_default_story_witness :
  get_stories sample false (Some 12)
  = Some [ (Toks ["Sandra"; "moved"; "to"; "the"; "garden"; "."],
            ["Where"; "is"; "Sandra"; "?"], "garden") ]
  ∧ ∃ parsed,
      parse_stories sample false = Some parsed
      ∧ Forall (λ t : flat_triple,
                  ∃ story, (story, t.1.2, t.2) ∈ parsed
                           ∧ t.1.1 = Toks (concat (item_words <$> story))
                           ∧ concat (item_words <$> story) ≠ [])
          [ (Toks ["Sandra"; "moved"; "to"; "the"; "garden"; "."],
             ["Where"; "is"; "Sandra"; "?"], "garden") ].
Proof.
  assert (get_stories sample false (Some 12)
          = Some [ (Toks ["Sandra"; "moved"; "to"; "the"; "garden"; "."],
                    ["Where"; "is"; "Sandra"; "?"], "garden") ]) as H
    by (vm_compute; reflexivity).
  split; [exact H|]. exact (get_stories_default_story sample (Some 12) _ H).
Defined.

(** ** The vectorizer *)

Lemma vectorize_one_None word_idx story query answer :
  vectorize_one word_idx (story, query, answer) = None
  ↔ (∃ w, w ∈ item_words story ++ query ++ [answer] ∧ word_idx !! w = None)
    ∨ (∃ k, word_idx !! answer = Some k ∧ (size word_idx < k)%nat).
Proof.
  unfold vectorize_one.
  destruct (mapM (λ w, word_idx !! w) (item_words story)) as [x|] eqn:Ex;
    opt_simpl.
  2:{ split; [intros _|done]. left.
      apply mapM_None_1, Exists_exists in Ex as (w & Hin & Hw).
      exists w. split; [|done]. apply elem_of_app. by left. }
  destruct (mapM (λ w, word_idx !! w) query) as [xq|] eqn:Eq; opt_simpl.
  2:{ split; [intros _|done]. left.
      apply mapM_None_1, Exists_exists in Eq as (w & Hin & Hw).
      exists w. split; [|done]. rewrite !elem_of_app. auto. }
  assert (∀ w, w ∈ item_words story ++ query → is_Some (word_idx !! w))
    as Hknown.
  { intros w [Hin|Hin]%elem_of_app;
      apply list_elem_of_lookup_1 in Hin as [j Hj].
    - apply mapM_Some_1 in Ex.
      destruct (Forall2_lookup_l _ _ _ _ _ Ex Hj) as (? & _ & ?). eauto.
    - apply mapM_Some_1 in Eq.
      destruct (Forall2_lookup_l _ _ _ _ _ Eq Hj) as (? & _ & ?). eauto. }
  destruct (word_idx !! answer) as [k|] eqn:Ek; opt_simpl.
  2:{ split; [intros _|done]. left. exists answer. split; [|done].
      rewrite !elem_of_app, list_elem_of_singleton. auto. }
  unfold one_hot. case_decide as Hk; opt_simpl.
  - split; [done|]. intros [(w & Hin & Hw)|(k' & [= <-] & ?)]; [|lia].
    rewrite app_assoc in Hin. apply elem_of_app in Hin as [Hin|Hin].
    + apply Hknown in Hin as [? ?]. congruence.
    + apply list_elem_of_singleton in Hin as ->. congruence.
  - split; [intros _|done]. right. exists k. split; [done|lia].
Qed.

(** The loop of [vectorize_stories] (all of it but the final padding,
    which is the library's) fails in exactly two cases: a word of a story,
    of a query or an answer is not a key of [word_idx] (a [KeyError]), or
    the index of an answer is greater than [len(word_idx)] (an
    [IndexError] on the answer vector).  In both cases
    [vectorize_stories] fails. *)
Theorem vectorize_loop_fails_iff data word_idx :
  let bad (t : flat_triple) :=
    (∃ w, w ∈ item_words t.1.1 ++ t.1.2 ++ [t.2] ∧ word_idx !! w = None)
    ∨ (∃ k, word_idx !! t.2 = Some k ∧ (size word_idx < k)%nat) in
  (vectorize_loop word_idx data [] [] [] = None ↔ Exists bad data)
  ∧ (Exists bad data →
     ∀ story_maxlen query_maxlen,
       vectorize_stories data word_idx story_maxlen query_maxlen = None).
Proof.
  intros bad.
  assert (vectorize_loop word_idx data [] [] [] = None ↔ Exists bad data)
    as Hiff.
  { rewrite vectorize_loop_rows.
    assert (∀ o : option (list (list nat * list nat * list nat)),
              (rows ← o;
               Some ([] ++ ((λ r, r.1.1) <$> rows),
                     [] ++ ((λ r, r.1.2) <$> rows),
                     [] ++ ((λ r, r.2) <$> rows))) = None
              ↔ o = None) as Hnone by (by intros [rows|]).
    rewrite Hnone, mapM_None.
    split; intros H; (eapply Exists_impl; [exact H|]);
      intros [[story query] answer]; apply vectorize_one_None. }
  split; [done|]. intros Hbad story_maxlen query_maxlen.
  unfold vectorize_stories. by rewrite (proj2 Hiff Hbad).
Qed.

Lemma vectorize_loop_fails_iff_witness :
  Exists (λ t : flat_triple,
            (∃ w, w ∈ item_words t.1.1 ++ t.1.2 ++ [t.2]
                  ∧ tiny_word_idx !! w = None)
            ∨ (∃ k, tiny_word_idx !! t.2 = Some k
                    ∧ (size tiny_word_idx < k)%nat))
    [(Toks ["John"], ["Where"], "bathroom")]
  ∧ vectorize_stories [(Toks ["John"], ["Where"], "bathroom")]
      tiny_word_idx 8 5 = None.
Proof.
  assert (Exists (λ t : flat_triple,
                    (∃ w, w ∈ item_words t.1.1 ++ t.1.2 ++ [t.2]
                          ∧ tiny_word_idx !! w = None)
                    ∨ (∃ k, tiny_word_idx !! t.2 = Some k
                            ∧ (size tiny_word_idx < k)%nat))
            [(Toks ["John"], ["Where"], "bathroom")]) as H.
  { left. left. exists "John". split; [left|]. vm_compute. reflexivity. }
  split; [exact H|].
  exact (proj2 (vectorize_loop_fails_iff _ tiny_word_idx) H 8%nat 5%nat).
Defined.

Lemma mapM_option_app {A B} (f : A → option B) l1 l2 :
  mapM f (l1 ++ l2) = a ← mapM f l1; b ← mapM f l2; Some (a ++ b).
Proof.
  induction l1 as [|x l1 IH]; cbn.
  - by destruct (mapM f l2).
  - destruct (f x); opt_simpl; [|done]. rewrite IH.
    destruct (mapM f l1); opt_simpl; [|done]. by destruct (mapM f l2).
Qed.

(** The rows of a sample do not depend on the other samples: vectorizing
    two data sets one after the other is vectorizing each on its own and
    putting the rows together. *)
Theorem vectorize_stories_app d1 d2 word_idx story_maxlen query_maxlen :
  vectorize_stories (d1 ++ d2) word_idx story_maxlen query_maxlen
  = '(X1, Xq1, Y1) ← vectorize_stories d1 word_idx story_maxlen query_maxlen;
    '(X2, Xq2, Y2) ← vectorize_stories d2 word_idx story_maxlen query_maxlen;
    Some (X1 ++ X2, Xq1 ++ Xq2, Y1 ++ Y2).
Proof.
  unfold vectorize_stories. rewrite !vectorize_loop_rows, mapM_option_app.
  destruct (mapM (vectorize_one word_idx) d1) as [r1|]; opt_simpl; [|done].
  destruct (mapM (vectorize_one word_idx) d2) as [r2|]; opt_simpl; [|done].
  cbn. unfold pad_sequences. by rewrite !fmap_app.
Qed.

(** ** The start-up cell *)

Lemma foldl_max_spec rest : ∀ x,
  (x ≤ foldl Nat.max x rest)%nat
  ∧ Forall (λ y, (y ≤ foldl Nat.max x rest)%nat) rest
  ∧ (foldl Nat.max x rest = x ∨ foldl Nat.max x rest ∈ rest).
Proof.
  induction rest as [|y rest IH]; intros x; cbn.
  - split; [lia|]. split; [constructor|by left].
  - destruct (IH (x `max` y)%nat) as (Hle & Hall & Hin).
    split; [lia|]. split; [constructor; [lia|done]|].
    destruct Hin as [Hm|Hin]; [|right; by right].
    rewrite Hm. destruct (Nat.max_spec x y) as [[_ ->]|[_ ->]];
      [right; left|by left].
Qed.

Lemma py_max_spec l m :
  py_max l = Some m → Forall (λ y, (y ≤ m)%nat) l ∧ m ∈ l.
Proof.
  destruct l as [|x rest]; [done|]. cbn. intros [= <-].
  destruct (foldl_max_spec rest x) as (Hle & Hall & Hin).
  split; [by constructor|]. destruct Hin as [->|Hin]; [left|by right].
Qed.

Lemma item_len_words x : Z.to_nat (item_len x) = length (item_words x).
Proof. destruct x; cbn; lia. Qed.

Lemma startup_Some train test s :
  startup train test = Some s →
  build_vocab train test = Some (vocab s)
  ∧ word_idx s = build_word_idx (vocab s)
  ∧ story_maxlen_of (train ++ test) = Some (story_maxlen s)
  ∧ query_maxlen_of (train ++ test) = Some (query_maxlen s)
  ∧ vectorize_stories train (word_idx s) (story_maxlen s) (query_maxlen s)
    = Some (train_vectors s)
  ∧ vectorize_stories test (word_idx s) (story_maxlen s) (query_maxlen s)
    = Some (test_vectors s).
Proof.
  unfold startup. intros H.
  apply bind_Some in H as (v & Hv & H).
  apply bind_Some in H as (sm & Hsm & H).
  apply bind_Some in H as (qm & Hqm & H).
  apply bind_Some in H as (tv & Htv & H).
  apply bind_Some in H as (sv & Hsv & [= <-]). done.
Qed.

Lemma startup_lengths train test s :
  startup train test = Some s →
  (∀ story query answer,
     (story, query, answer) ∈ train ++ test →
     (length (item_words story) ≤ story_maxlen s)%nat
     ∧ (length query ≤ query_maxlen s)%nat)
  ∧ (∃ story query answer,
       (story, query, answer) ∈ train ++ test
       ∧ length (item_words story) = story_maxlen s)
  ∧ (∃ story query answer,
       (story, query, answer) ∈ train ++ test
       ∧ length query = query_maxlen s).
Proof.
  intros (_ & _ & Hsm & Hqm & _)%startup_Some.
  apply py_max_spec in Hsm as [Hs1 Hs2], Hqm as [Hq1 Hq2].
  rewrite Forall_fmap, Forall_forall in Hs1, Hq1.
  split; [|split].
  - intros story query answer Hin. specialize (Hs1 _ Hin).
    specialize (Hq1 _ Hin). cbn in *. rewrite item_len_words in Hs1. done.
  - apply list_elem_of_fmap in Hs2 as ([[story query] answer] & Heq & Hin).
    exists story, query, answer. cbn in Heq.
    rewrite item_len_words in Heq. done.
  - apply list_elem_of_fmap in Hq2 as ([[story query] answer] & Heq & Hin).
    by exists story, query, answer.
Qed.

(** The maximum lengths are maxima that are reached: no story and no query
    of the two corpora is longer than its maximum length, and one story
    and one query are exactly that long. *)
Theorem startup_maxlen train test s :
  startup train test = Some s →
  (∀ story query answer,
     (story, query, answer) ∈ train ++ test →
     (length (item_words story) ≤ story_maxlen s)%nat
     ∧ (length query ≤ query_maxlen s)%nat)
  ∧ (∃ story query answer,
       (story, query, answer) ∈ train ++ test
       ∧ length (item_words story) = story_maxlen s)
  ∧ (∃ story query answer,
       (story, query, answer) ∈ train ++ test
       ∧ length query = query_maxlen s).
Proof. apply startup_lengths. Qed.

Lemma startup_maxlen_witness :
  startup sample_train sample_test = Some sample_setup
  ∧ ∃ story query answer,
      (story, query, answer) ∈ sample_train ++ sample_test
      ∧ length (item_words story) = story_maxlen sample_setup.
Proof.
  assert (startup sample_train sample_test = Some sample_setup) as H
    by (vm_compute; reflexivity).
  split; [exact H|].
  exact (proj1 (proj2 (startup_maxlen sample_train sample_test _ H))).
Defined.

Lemma corpus_word_index train test v story query answer w :
  build_vocab train test = Some v →
  (story, query, answer) ∈ train ++ test →
  w ∈ item_words story ++ query ++ [answer] →
  is_Some (build_word_idx v !! w).
Proof.
  intros (s & -> & Hs)%build_vocab_Some Hin Hw.
  destruct (sorted_spec s) as (Hsorted & Hnd & _).
  assert (w ∈ sorted s) as (j & Hj)%list_elem_of_lookup_1.
  { apply Hsorted, Hs. eauto. }
  exists (j + 1)%nat. apply build_word_idx_lookup; eauto.
Qed.

Lemma build_vocab_NoDup train test v :
  build_vocab train test = Some v → NoDup v.
Proof.
  intros (s & -> & _)%build_vocab_Some. apply sorted_spec.
Qed.

Lemma word_index_range v w n :
  NoDup v → build_word_idx v !! w = Some n → (1 ≤ n ≤ length v)%nat.
Proof.
  intros Hnd (j & Hj%lookup_lt_Some & ->)%build_word_idx_lookup; [lia|done].
Qed.

Lemma mapM_word_index_range v l x :
  NoDup v → mapM (λ w, build_word_idx v !! w) l = Some x →
  Forall (λ n, (1 ≤ n ≤ length v)%nat) x.
Proof.
  intros Hnd H%mapM_Some_1.
  induction H; constructor; eauto using word_index_range.
Qed.

Lemma corpus_rows train test s part X Xq Y :
  startup train test = Some s →
  (∀ t, t ∈ part → t ∈ train ++ test) →
  vectorize_stories part (word_idx s) (story_maxlen s) (query_maxlen s)
  = Some (X, Xq, Y) →
  faithful_rows s part (X, Xq, Y).
Proof.
  intros Hs Hpart Hvec. pose proof (startup_lengths _ _ _ Hs) as (Hmax & _).
  apply startup_Some in Hs as (Hv & Hidx & _).
  pose proof (build_vocab_NoDup _ _ _ Hv) as Hnd.
  apply vectorize_stories_rows in Hvec as (rows & Hrows & -> & -> & ->).
  intros i story query answer Hi. apply mapM_Some_1 in Hrows.
  destruct (Forall2_lookup_l _ _ _ _ _ Hrows Hi) as (r & Hr & Hone).
  apply vectorize_one_Some in Hone as (Hx & Hxq & k & Hk & Hy).
  destruct (Hmax story query answer) as [Hls Hlq].
  { apply Hpart. by eapply list_elem_of_lookup_2. }
  exists r.1.1, r.1.2, k. rewrite !list_lookup_fmap, Hr. cbn.
  rewrite (length_mapM _ _ _ Hx) in Hls. rewrite (length_mapM _ _ _ Hxq) in Hlq.
  rewrite !pad_row_short by done. repeat split; [done..| |].
  - unfold one_hot in Hy. case_decide; [|done]. injection Hy as <-.
    by rewrite Hidx, build_word_idx_size.
  - rewrite Hidx in Hx, Hxq, Hk. constructor.
    + by eapply word_index_range.
    + apply Forall_app. split; by eapply mapM_word_index_range.
Qed.

(** With the vocabulary and the maximum lengths the cell computes, no
    story and no query of the training or of the test set is truncated:
    each row is its padding of zeros followed by the indices of all its
    words.  Every word index is between 1 and [len(vocab)], so a 0 in a
    row is always padding, and every answer vector is hot at such an
    index, never at index 0. *)
Theorem startup_rows train test s :
  startup train test = Some s →
  faithful_rows s train (train_vectors s)
  ∧ faithful_rows s test (test_vectors s).
Proof.
  intros Hs. pose proof (startup_Some _ _ _ Hs) as (_ & _ & _ & _ & Htv & Hsv).
  destruct (train_vectors s) as [[X Xq] Y], (test_vectors s) as [[tX tXq] tY].
  split; (eapply corpus_rows; [exact Hs| |eassumption]); intros t Ht;
    apply elem_of_app; auto.
Qed.

Lemma startup_rows_witness :
  startup sample_train sample_test = Some sample_setup
  ∧ faithful_rows sample_setup sample_test (test_vectors sample_setup).
Proof.
  assert (startup sample_train sample_test = Some sample_setup) as H
    by (vm_compute; reflexivity).
  split; [exact H|].
  exact (proj2 (startup_rows sample_train sample_test _ H)).
Defined.

Lemma py_max_is_Some l : l ≠ [] → is_Some (py_max l).
Proof. destruct l; [done|]. by eexists. Qed.

Lemma startup_returns train test :
  train ++ test ≠ [] →
  Forall (λ t : flat_triple, ∃ ws, t.1.1 = Toks ws) (train ++ test) →
  is_Some (startup train test).
Proof.
  intros Hne Hall. unfold startup.
  destruct (build_vocab_returns _ _ Hne Hall) as [v Hv]. rewrite Hv. opt_simpl.
  pose proof (build_vocab_NoDup _ _ _ Hv) as Hnd.
  destruct (py_max_is_Some
              ((λ t : flat_triple, Z.to_nat (item_len t.1.1)) <$> train ++ test))
    as [sm Hsm]; [by destruct (train ++ test)|].
  destruct (py_max_is_Some ((λ t : flat_triple, length t.1.2) <$> train ++ test))
    as [qm Hqm]; [by destruct (train ++ test)|].
  unfold story_maxlen_of, query_maxlen_of. rewrite Hsm, Hqm. opt_simpl.
  assert (∀ part, (∀ t, t ∈ part → t ∈ train ++ test) →
            is_Some (vectorize_stories part (build_word_idx v) sm qm))
    as Hvec.
  { intros part Hpart. apply vectorize_stories_returns, Forall_forall.
    intros [[story query] answer] Hin%Hpart. cbn. split.
    - apply Forall_forall. intros w Hw.
      eapply corpus_word_index; [done..|]. rewrite app_assoc.
      apply elem_of_app. by left.
    - destruct (corpus_word_index _ _ _ _ _ _ answer Hv Hin) as [k Hk].
      { rewrite !elem_of_app, list_elem_of_singleton. auto. }
      exists k. split; [done|].
      apply word_index_range in Hk; [|done].
      rewrite build_word_idx_size by done. lia. }
  destruct (Hvec train) as [tv ->]; [intros t ?; apply elem_of_app; auto|].
  destruct (Hvec test) as [sv ->]; [intros t ?; apply elem_of_app; auto|].
  by eexists.
Qed.

(** Once both files are parsed and they hold at least one question
    between them, the rest of the cell cannot fail: the vocabulary and the
    maximum lengths exist, every word that is looked up is in [word_idx],
    and every answer index fits its vector. *)
Theorem startup_from_files_returns train_lines test_lines train test :
  get_stories train_lines false None = Some train →
  get_stories test_lines false None = Some test →
  train ++ test ≠ [] →
  is_Some (startup_from_files train_lines test_lines).
Proof.
  intros Htrain Htest Hne. unfold startup_from_files.
  rewrite Htrain, Htest. opt_simpl. apply startup_returns; [done|].
  apply get_stories_default_tokens in Htrain, Htest.
  apply Forall_app. split.
  - eapply Forall_impl; [exact Htrain|]. intros t (ws & ? & _). eauto.
  - eapply Forall_impl; [exact Htest|]. intros t (ws & ? & _). eauto.
Qed.

Lemma startup_from_files_returns_witness :
  get_stories sample false None
  = Some [ (Toks ["Mary"; "moved"; "to"; "the"; "bathroom"; ".";
                  "John"; "went"; "to"; "the"; "hallway"; "."],
            ["Where"; "is"; "Mary"; "?"], "bathroom");
           (Toks ["Mary"; "moved"; "to"; "the"; "bathroom"; ".";
                  "John"; "went"; "to"; "the"; "hallway"; ".";
                  "Daniel"; "went"; "back"; "to"; "the"; "hallway"; "."],
            ["Where"; "is"; "Daniel"; "?"], "hallway");
           (Toks ["Sandra"; "moved"; "to"; "the"; "garden"; "."],
            ["Where"; "is"; "Sandra"; "?"], "garden") ]
  ∧ is_Some (startup_from_files sample []).
Proof.
  assert (get_stories sample false None
          = Some [ (Toks ["Mary"; "moved"; "to"; "the"; "bathroom"; ".";
                          "John"; "went"; "to"; "the"; "hallway"; "."],
                    ["Where"; "is"; "Mary"; "?"], "bathroom");
                   (Toks ["Mary"; "moved"; "to"; "the"; "bathroom"; ".";
                          "John"; "went"; "to"; "the"; "hallway"; ".";
                          "Daniel"; "went"; "back"; "to"; "the"; "hallway"; "."],
                    ["Where"; "is"; "Daniel"; "?"], "hallway");
                   (Toks ["Sandra"; "moved"; "to"; "the"; "garden"; "."],
                    ["Where"; "is"; "Sandra"; "?"], "garden") ]) as H
    by (vm_compute; reflexivity).
  split; [exact H|].
  exact (startup_from_files_returns sample [] _ [] H eq_refl
           ltac:(discriminate)).
Defined.

Lemma stories_tokens_or_blank (corpus : list flat_triple) :
  Forall (λ t : flat_triple, ∃ ws, t.1.1 = Toks ws) corpus
  ∨ Exists (λ t : flat_triple, t.1.1 = Blank) corpus.
Proof.
  induction corpus as [|[[story q] a] corpus [IH|IH]].
  - left. constructor.
  - destruct story as [ws|].
    + left. constructor; [by exists ws|done].
    + right. by left.
  - right. by right.
Qed.

(** The cell fails in two cases only: the two corpora are empty (no set to
    reduce, no length to take the maximum of), or a story is the string
    [''] instead of a list of tokens. *)
Theorem startup_fails_iff train test :
  startup train test = None
  ↔ train ++ test = []
    ∨ Exists (λ t : flat_triple, t.1.1 = Blank) (train ++ test).
Proof.
  split.
  - intros Hnone. destruct (decide (train ++ test = [])) as [|Hne]; [by left|].
    destruct (stories_tokens_or_blank (train ++ test)) as [Hall|Hex];
      [|by right].
    destruct (startup_returns _ _ Hne Hall) as [s Hs]. congruence.
  - intros [Hnil|Hex]; unfold startup, build_vocab.
    + by rewrite Hnil.
    + assert (mapM triple_words (train ++ test) = None) as ->; [|done].
      apply mapM_None. eapply Exists_impl; [exact Hex|].
      intros [[story q] a]. cbn. by intros ->.
Qed.

(** ** The two string types, and episodes *)

Lemma lstrip_same s :
  all_chars same_space s = true → lstrip PyStr s = lstrip PyUnicode s.
Proof.
  induction s as [|c s IH]; [done|]. cbn [all_chars lstrip].
  intros [Hc Hs]%andb_prop.
  apply Bool.eqb_prop in Hc. rewrite Hc, IH by done. done.
Qed.

Lemma rstrip_same s :
  all_chars same_space s = true → rstrip PyStr s = rstrip PyUnicode s.
Proof.
  induction s as [|c s IH]; [done|]. cbn [all_chars rstrip].
  intros [Hc Hs]%andb_prop.
  apply Bool.eqb_prop in Hc. by rewrite Hc, IH.
Qed.

Lemma strip_same s :
  all_chars same_space s = true → strip PyStr s = strip PyUnicode s.
Proof.
  intros H. unfold strip. rewrite lstrip_same by done.
  apply rstrip_same. by apply all_chars_lstrip.
Qed.

(** On text whose characters both string types class alike (all ASCII
    text without the control characters 28 to 31), [ask_qa] tokenizes a
    [str] sentence exactly as the parser tokenized the [unicode] lines. *)
Theorem tokenize_str_unicode sent :
  all_chars same_space sent = true →
  tokenize PyStr sent = tokenize PyUnicode sent.
Proof.
  intros H. unfold tokenize, re_split.
  pose proof (proj1 (scan_all_chars same_space sent) "" H) as Hall.
  induction Hall as [|p l Hp _ IH]; [done|].
  apply strip_same in Hp.
  destruct (decide (strip PyStr p = "")) as [He|Hne].
  - rewrite !filter_cons_False by (intros ?; congruence). done.
  - rewrite !filter_cons_True by congruence. cbn [fmap list_fmap].
    f_equal; done.
Qed.

Lemma tokenize_str_unicode_witness :
  all_chars same_space "Where is John?" = true
  ∧ tokenize PyStr "Where is John?" = tokenize PyUnicode "Where is John?".
Proof.
  split; [reflexivity|]. apply (tokenize_str_unicode "Where is John?").
  reflexivity.
Defined.

Lemma record_step_data_prefix os d d0 s r :
  record_step os (d ++ d0, s) r
  = (λ st, (d ++ st.1, st.2)) <$> record_step os (d0, s) r.
Proof.
  destruct r as [n text|n q a sup]; cbn; [done|].
  destruct (if os then _ else _); cbn; [|done]. by rewrite app_assoc.
Qed.

Lemma parse_loop_data_prefix os lines : ∀ d d0 s,
  parse_loop os (d ++ d0, s) lines
  = (λ st, (d ++ st.1, st.2)) <$> parse_loop os (d0, s) lines.
Proof.
  induction lines as [|line lines IH]; intros d d0 s; cbn [parse_loop];
    [done|].
  rewrite !parse_step_record. destruct (parse_line line) as [r|]; [|done].
  opt_simpl. rewrite record_step_data_prefix.
  destruct (record_step os (d0, s) r) as [[d1 s1]|]; [|done]. cbn.
  apply IH.
Qed.

Lemma parse_step_reset os d s line r :
  parse_line line = Some r → nid_of r = 1%Z →
  parse_step os (d, s) line = parse_step os (d, []) line.
Proof.
  intros Hline Hr. rewrite !parse_step_record, Hline. opt_simpl.
  destruct r; cbn in *; by rewrite Hr.
Qed.

(** Episodes are parsed independently of what was read before them: a
    line sequence can be cut before any line numbered 1, and the triples
    of the whole are the triples of the first part followed by those of
    the second (the whole fails exactly when a part fails). *)
Theorem parse_stories_cut_at_episode l1 line l2 r only_supporting :
  parse_line line = Some r → nid_of r = 1%Z →
  parse_stories (l1 ++ line :: l2) only_supporting
  = d1 ← parse_stories l1 only_supporting;
    d2 ← parse_stories (line :: l2) only_supporting;
    Some (d1 ++ d2).
Proof.
  intros Hline Hr. unfold parse_stories. rewrite parse_loop_app.
  destruct (parse_loop only_supporting ([], []) l1) as [[d1 s1]|]; [|done].
  opt_simpl. cbn [parse_loop].
  rewrite (parse_step_reset _ d1 s1 _ _ Hline Hr).
  change (parse_step only_supporting (d1, []) line
            ≫= λ st', parse_loop only_supporting st' l2)
    with (parse_loop only_supporting (d1, []) (line :: l2)).
  change (parse_step only_supporting ([], []) line
            ≫= λ st', parse_loop only_supporting st' l2)
    with (parse_loop only_supporting ([], []) (line :: l2)).
  rewrite <- (app_nil_r d1) at 1. rewrite parse_loop_data_prefix.
  by destruct (parse_loop only_supporting ([], []) (line :: l2)) as [[d2 s2]|].
Qed.

Lemma parse_stories_cut_at_episode_witness :
  parse_line "1 Sandra moved to the garden."
  = Some (Narrative 1 "Sandra moved to the garden.")
  ∧ parse_stories
      (take 5 sample ++ "1 Sandra moved to the garden." :: drop 6 sample) true
    = d1 ← parse_stories (take 5 sample) true;
      d2 ← parse_stories ("1 Sandra moved to the garden." :: drop 6 sample)
             true;
      Some (d1 ++ d2).
Proof.
  split; [reflexivity|].
  apply (parse_stories_cut_at_episode (take 5 sample)
           "1 Sandra moved to the garden." (drop 6 sample)
           (Narrative 1 "Sandra moved to the garden.") true); reflexivity.
Defined.
